(** * Photometer: bound engine and evidence codec

    A shallow embedding of [reference.cpp]: the bit-packed [RawSample], the
    decoded [Sample] with its arbitration predicates, and the [Photometer]
    engine that stores samples in two [std::multimap]s keyed by expiry time.

    Numeric model.  A finite C++ [double] is embedded as the rational [Q] it
    denotes.  Comparisons are the mathematical ones.  An arithmetic operation
    is the mathematical one followed by [Double.round], the rounding of
    binary64 to the nearest representable number, halfway cases to the even
    one; infinities and NaN are outside the model.  [std::log] is a parameter
    of the functions that call it.  Integers ([uint8_t], bit-fields, the
    16-bit wire word) are [Z] with their wrap-around written out.  A
    [std::multimap<double, Sample>] is the list of its (key, value) pairs in
    iteration order. *)

From Stdlib Require Import ZArith QArith Qabs Qround Qpower Bool List Sorted Lia Lqa.
Import ListNotations.

Local Open Scope Q_scope.

(** ** Comparisons on [double] *)

(** [a < b] on doubles. *)
Definition Qltb (a b : Q) : bool := negb (Qle_bool b a).

(** [a <= b] on doubles. *)
Definition Qleb (a b : Q) : bool := Qle_bool a b.

(** [static_cast<intN_t>(double)]: the fractional part is discarded
    (truncation toward zero). *)
Definition Qtrunc (q : Q) : Z := Z.quot (Qnum q) (Zpos (Qden q)).

(** [std::round]: the nearest integer, halfway cases away from zero. *)
Definition Qround_away (q : Q) : Z :=
  if Qle_bool 0 q then Qfloor (q + (1 # 2)) else Qceiling (q - (1 # 2)).

(** Floor of the base-2 logarithm of the fraction [a / b], for positive
    integers [a] and [b]: the [m] with [2^m <= a / b < 2^(m+1)]. *)
Definition floor_log2_frac (a b : Z) : Z :=
  let l := (Z.log2 a - Z.log2 b)%Z in
  if (if (0 <=? l)%Z then (Z.shiftl b l <=? a)%Z else (b <=? Z.shiftl a (- l))%Z)
  then l else (l - 1)%Z.

(** Reinterpretation of an 8-bit pattern as a two's complement number: what
    reading the bit-field [int16_t value: 8] gives. *)
Definition sext8 (z : Z) : Z :=
  let u := (z mod 256)%Z in
  if (u <? 128)%Z then u else (u - 256)%Z.

Definition b2z (b : bool) : Z := if b then 1%Z else 0%Z.

(** ** Arithmetic on [double] *)

Module Double.

(** The nearest integer, halfway cases to the even one. *)
Definition rne (s : Q) : Z :=
  let f := Qfloor s in
  match Qcompare (s - inject_Z f) (1 # 2) with
  | Lt => f
  | Gt => (f + 1)%Z
  | Eq => if Z.even f then f else (f + 1)%Z
  end.

(** The binary exponent of [q], not zero: the floor of the base-2 logarithm
    of its magnitude. *)
Definition exponent (q : Q) : Z :=
  floor_log2_frac (Z.abs (Qnum q)) (Zpos (Qden q)).

(** The exponent of the unit in the last place at [q]: 53 significant bits,
    and nothing finer than the spacing [2^-1074] of the subnormal numbers. *)
Definition quantum (q : Q) : Z := Z.max (exponent q - 52) (-1074).

(** The binary64 number nearest to [q], halfway cases to the even
    significand.  The result is finite: an overflow to infinity is outside
    the model. *)
Definition round (q : Q) : Q :=
  if Qeq_bool q 0 then 0
  else inject_Z (rne (q / 2 ^ quantum q)) * 2 ^ quantum q.

Definition add (a b : Q) : Q := round (a + b).
Definition sub (a b : Q) : Q := round (a - b).
Definition mul (a b : Q) : Q := round (a * b).
Definition div (a b : Q) : Q := round (a / b).

(** The literal [0.0165]. *)
Definition c0_0165 : Q := round 0.0165.

(** [std::log(x)/std::log(2.)] for a library logarithm [log]. *)
Definition log2_quotient (log : Q -> Q) (x : Q) : Q := div (log x) (log 2).

(** The computed base-2 logarithm is within a quarter of the true one, for
    arguments from [2^-64] to [2^64].  The true logarithm is compared
    through integer powers: it is below [k/4] when [x^4 < 2^k] and above
    when [2^k < x^4]. *)
Definition log2_accurate (log : Q -> Q) : Prop :=
  forall (x : Q) (k : Z),
    2 ^ (-64) <= x -> x <= 2 ^ 64 ->
    (x * x * x * x < 2 ^ k -> 4 * log2_quotient log x < inject_Z k + 1) /\
    (2 ^ k < x * x * x * x -> inject_Z k - 1 < 4 * log2_quotient log x).

(** A logarithm that is accurate in this sense, to instantiate [log] with:
    1 at 2, and elsewhere the midpoint of the quarter that holds the base-2
    logarithm. *)
Definition log_ref (x : Q) : Q :=
  if Qeq_bool x 2 then 1
  else
    let n := (Qnum x * Qnum x * (Qnum x * Qnum x))%Z in
    let d := (Zpos (Qden x) * Zpos (Qden x)
              * (Zpos (Qden x) * Zpos (Qden x)))%Z in
    inject_Z (2 * floor_log2_frac n d + 1) / 8.

End Double.

(** ** RawSample: the 16-bit wire word *)

Module RawSample.

(** [struct RawSample]: five bit-fields packed from the least significant
    bit: confidence (2), clear (1), value (8, signed), sign (1),
    horizon (4). *)
Record t : Type := mk {
  confidence : Z;
  clear : bool;
  value : Z;
  sign : bool;
  horizon : Z
}.

(** The values the bit-fields can hold. *)
Definition in_range (r : t) : Prop :=
  (0 <= confidence r < 4)%Z /\ (-128 <= value r < 128)%Z /\
  (0 <= horizon r < 16)%Z.

(** [value_lx]: [50e3 + 390*value], the product taken on integers.  The sum
    is an integer below [2^53], which the addition of doubles gives
    exactly. *)
Definition value_lx (r : t) : Q := 50e3 + inject_Z (390 * value r).

(** [horizon_s]: [0.0165*(1u << horizon)]. *)
Definition horizon_s (r : t) : Q :=
  Double.mul Double.c0_0165 (inject_Z (Z.shiftl 1 (horizon r))).

(** The 16-bit little-endian word made of two bytes. *)
Definition word (b0 b1 : Z) : Z := Z.lor b0 (Z.shiftl b1 8).

(** [std::memcpy(&raw, data, 2)]: the fields read from the two bytes. *)
Definition of_bytes (b0 b1 : Z) : t :=
  let w := word b0 b1 in
  {| confidence := Z.land w 3;
     clear := Z.testbit w 2;
     value := sext8 (Z.land (Z.shiftr w 3) 255);
     sign := Z.testbit w 11;
     horizon := Z.land (Z.shiftr w 12) 15 |}.

(** [reinterpret_cast<const uint8_t*>(this)]: the two bytes of the struct,
    as [dump] and [test_serialise] read them. *)
Definition to_bytes (r : t) : Z * Z :=
  let w :=
    Z.lor (Z.land (confidence r) 3)
     (Z.lor (Z.shiftl (b2z (clear r)) 2)
       (Z.lor (Z.shiftl (Z.land (value r) 255) 3)
         (Z.lor (Z.shiftl (b2z (sign r)) 11)
                (Z.shiftl (Z.land (horizon r) 15) 12)))) in
  (Z.land w 255, Z.shiftr w 8).

End RawSample.

(** ** Sample: decoded evidence *)

Module Sample.

(** [class Sample]: the private members, in declaration order of the
    six-argument constructor. *)
Record t : Type := mk {
  start_ : Q;
  end_ : Q;
  sign_ : bool;
  value_ : Q;
  clear_ : bool;
  confidence_ : Z
}.

Definition start (s : t) : Q := start_ s.
Definition end' (s : t) : Q := end_ s.
Definition should_clear (s : t) : bool := clear_ s.
Definition value (s : t) : Q := value_ s.
Definition sign (s : t) : bool := sign_ s.
Definition confidence (s : t) : Z := confidence_ s.

(** [Sample(double now, const RawSample &raw)]. *)
Definition of_raw (now : Q) (raw : RawSample.t) : t :=
  {| start_ := now;
     end_ := Double.add now (RawSample.horizon_s raw);
     sign_ := RawSample.sign raw;
     value_ := RawSample.value_lx raw;
     clear_ := RawSample.clear raw;
     confidence_ := RawSample.confidence raw |}.

(** [from_raw(now, data)]. *)
Definition from_raw (now : Q) (data : Z * Z) : t :=
  of_raw now (RawSample.of_bytes (fst data) (snd data)).

(** The [.value] initialiser of [raw()]:
    [static_cast<int16_t>((value_ - 50e3)/390)] stored in the signed 8-bit
    field.  The conversion has no defined result when the truncated quotient
    does not fit [int16_t], which is [None]; a number that fits is stored
    modulo the width of the field. *)
Definition raw_value (s : t) : option Z :=
  let v := Qtrunc (Double.div (Double.sub (value_ s) 50e3) 390) in
  if (-32768 <=? v)%Z && (v <=? 32767)%Z then Some (sext8 v) else None.

(** The [.horizon] initialiser of [raw()]:
    [static_cast<uint16_t>(std::round(std::log((end_ - start_)/0.0165)
    /std::log(2.)))] stored in the 4-bit field.  The logarithm of a
    non-positive number is infinite or not a number, and the conversion has
    no defined result then or when the rounded quotient does not fit
    [uint16_t]: those cases are [None]. *)
Definition raw_horizon (log : Q -> Q) (s : t) : option Z :=
  let x := Double.div (Double.sub (end_ s) (start_ s)) Double.c0_0165 in
  if Qltb 0 x then
    let h := Qround_away (Double.log2_quotient log x) in
    if (0 <=? h)%Z && (h <=? 65535)%Z then Some (h mod 16)%Z else None
  else None.

(** [raw()], with the library logarithm [log]. *)
Definition raw (log : Q -> Q) (s : t) : option RawSample.t :=
  match raw_value s, raw_horizon log s with
  | Some v, Some h =>
    Some {| RawSample.confidence := (confidence_ s mod 4)%Z;
            RawSample.clear := clear_ s;
            RawSample.value := v;
            RawSample.sign := sign_ s;
            RawSample.horizon := h |}
  | _, _ => None
  end.

(** [std::numeric_limits<double>::max()]. *)
Definition dbl_max : Q := inject_Z (2 ^ 1024 - 2 ^ 971).

(** [Sample(bool universal_sign)]. *)
Definition universal (universal_sign : bool) : t :=
  {| start_ := - dbl_max;
     end_ := dbl_max;
     sign_ := universal_sign;
     value_ := if universal_sign then 100e3 else 0;
     clear_ := false;
     confidence_ := 0 |}.

Definition conflicts (this other : t) : bool :=
  (sign_ this && negb (sign_ other) && Qltb (value_ this) (value_ other))
  || (negb (sign_ this) && sign_ other && Qltb (value_ other) (value_ this)).

Definition is_superset_of (this other : t) : bool :=
  Qleb (end_ other) (end_ this)
  && ((sign_ this && sign_ other && Qleb (value_ this) (value_ other))
      || (negb (sign_ this) && negb (sign_ other)
          && Qleb (value_ other) (value_ this))).

Definition overrides (this other : t) : bool :=
  if conflicts this other
  then (confidence_ other <? confidence_ this)%Z
       || ((confidence_ this =? confidence_ other)%Z
           && Qltb (start_ this) (start_ other))
  else false.

Definition resolve_lower (this other : t) : t :=
  if Qltb (value_ other) (value_ this) then this else other.

Definition resolve_upper (this other : t) : t :=
  if Qltb (value_ this) (value_ other) then this else other.

End Sample.

Definition universal_lower : Sample.t := Sample.universal false.
Definition universal_upper : Sample.t := Sample.universal true.

(** ** Photometer: the bound engine *)

Module Photometer.

(** [typedef std::multimap<double, Sample> MapT]: the (key, value) pairs in
    iteration order, which is ascending key order, equal keys in insertion
    order. *)
Definition MapT : Type := list (Q * Sample.t).

(** [m.upper_bound(k)] as the range from that iterator to [m.cend()]: the
    elements from the first one whose key is greater than [k]. *)
Fixpoint upper_bound (k : Q) (m : MapT) : MapT :=
  match m with
  | [] => []
  | kv :: m' => if Qltb k (fst kv) then m else upper_bound k m'
  end.

(** [m.emplace(k, v)]: the new pair goes at the upper bound of [k], after
    the elements whose key is not greater. *)
Fixpoint emplace (k : Q) (v : Sample.t) (m : MapT) : MapT :=
  match m with
  | [] => [(k, v)]
  | kv :: m' =>
    if Qltb k (fst kv) then (k, v) :: m else kv :: emplace k v m'
  end.

Record t : Type := mk {
  lower_by_end : MapT;
  upper_by_end : MapT
}.

(** [Photometer() = default]. *)
Definition empty : t := {| lower_by_end := []; upper_by_end := [] |}.

(** [Photometer(const Photometer &current, double future)]. *)
Definition as_of (current : t) (future : Q) : t :=
  {| lower_by_end := upper_bound future (lower_by_end current);
     upper_by_end := upper_bound future (upper_by_end current) |}.

Definition size (p : t) : nat :=
  (length (lower_by_end p) + length (upper_by_end p))%nat.

(** [erase_old(now)]: both maps lose the range from [cbegin()] to
    [upper_bound(now)]. *)
Definition erase_old (now : Q) (p : t) : t :=
  {| lower_by_end := upper_bound now (lower_by_end p);
     upper_by_end := upper_bound now (upper_by_end p) |}.

(** The first branch of [consume]: both maps cleared, or old samples
    erased. *)
Definition clear_or_erase (sample : Sample.t) (p : t) : t :=
  if Sample.should_clear sample then empty
  else erase_old (Sample.start sample) p.

(** The [std::find_if] of [consume] and the insertion that depends on it,
    on the map [target]. *)
Definition insert_unless_subset (sample : Sample.t) (target : MapT) : MapT :=
  match find (fun other => Sample.is_superset_of (snd other) sample) target with
  | Some _ => target
  | None => emplace (Sample.end' sample) sample target
  end.

(** [consume(const Sample &sample)]. *)
Definition consume (sample : Sample.t) (p : t) : t :=
  let p' := clear_or_erase sample p in
  if Sample.sign sample
  then {| lower_by_end := lower_by_end p';
          upper_by_end := insert_unless_subset sample (upper_by_end p') |}
  else {| lower_by_end := insert_unless_subset sample (lower_by_end p');
          upper_by_end := upper_by_end p' |}.

(** [consume(double now, const uint8_t (&data)[2])]. *)
Definition consume_raw (now : Q) (data : Z * Z) (p : t) : t :=
  consume (Sample.from_raw now data) p.

(** The inner loop of [lower]: [keep] stays true when no upper sample
    overrides [l]. *)
Definition keep_lower (p : t) (l : Sample.t) : bool :=
  negb (existsb (fun kvu => Sample.overrides (snd kvu) l) (upper_by_end p)).

Definition keep_upper (p : t) (u : Sample.t) : bool :=
  negb (existsb (fun kvl => Sample.overrides (snd kvl) u) (lower_by_end p)).

Definition effective_lower (p : t) : Sample.t :=
  fold_left
    (fun eff kvl =>
       if keep_lower p (snd kvl) then Sample.resolve_lower eff (snd kvl)
       else eff)
    (lower_by_end p) universal_lower.

Definition effective_upper (p : t) : Sample.t :=
  fold_left
    (fun eff kvu =>
       if keep_upper p (snd kvu) then Sample.resolve_upper eff (snd kvu)
       else eff)
    (upper_by_end p) universal_upper.

Definition lower (p : t) : Q := Sample.value (effective_lower p).
Definition upper (p : t) : Q := Sample.value (effective_upper p).

(** [estimate()]: no [now], all samples considered current. *)
Definition estimate (p : t) : Q := 0.5 * (lower p + upper p).

(** [estimate(double now)]. *)
Definition estimate_at (now : Q) (p : t) : Q := estimate (as_of p now).

(** The engine after a sequence of [consume] calls on a fresh one. *)
Definition consume_all (samples : list Sample.t) : t :=
  fold_left (fun p s => consume s p) samples empty.

End Photometer.

(** ** Properties of engine states *)

Module Inv.

(** The map [target] of [consume]: chosen by the sample's sign. *)
Definition target (sample : Sample.t) (p : Photometer.t) : Photometer.MapT :=
  if Sample.sign sample then Photometer.upper_by_end p
  else Photometer.lower_by_end p.

(** Keys ascend along the iteration order. *)
Definition sorted_by_key (m : Photometer.MapT) : Prop :=
  StronglySorted (fun a b => fst a <= fst b) m.

(** Every element is keyed by the [end] of its sample. *)
Definition keyed_by_end (m : Photometer.MapT) : Prop :=
  Forall (fun kv => fst kv = Sample.end' (snd kv)) m.

Definition map_ok (m : Photometer.MapT) : Prop :=
  sorted_by_key m /\ keyed_by_end m.

Definition ok (p : Photometer.t) : Prop :=
  map_ok (Photometer.lower_by_end p) /\ map_ok (Photometer.upper_by_end p).

(** The elements whose sample ends after [now]. *)
Definition live (now : Q) (m : Photometer.MapT) : Photometer.MapT :=
  filter (fun kv => Qltb now (Sample.end' (snd kv))) m.

(** No element of [m] is a superset of another element of [m]. *)
Definition superset_free (m : Photometer.MapT) : Prop :=
  forall i j o e, i <> j -> nth_error m i = Some o -> nth_error m j = Some e ->
    Sample.is_superset_of (snd o) (snd e) = false.

End Inv.

(** ** The codec as the specification names it *)

Module Codec.

(** [decode(timestamp, 2 raw bytes)]: [Sample::from_raw]. *)
Definition decode (timestamp : Q) (bytes : Z * Z) : Sample.t :=
  Sample.from_raw timestamp bytes.

(** [encode(Evidence)]: the two bytes of [Sample::raw()], with the library
    logarithm [log]. *)
Definition encode (log : Q -> Q) (e : Sample.t) : option (Z * Z) :=
  option_map RawSample.to_bytes (Sample.raw log e).

(** The values of a [uint8_t]. *)
Definition byte_values : list Z := map Z.of_nat (seq 0 256).

(** The fields read from two bytes are within the widths of the bit-fields,
    and the bytes of the struct read back are the two bytes. *)
Definition bytes_roundtrip (b0 b1 : Z) : bool :=
  let r := RawSample.of_bytes b0 b1 in
  let bs := RawSample.to_bytes r in
  (0 <=? RawSample.confidence r)%Z && (RawSample.confidence r <? 4)%Z
  && (-128 <=? RawSample.value r)%Z && (RawSample.value r <? 128)%Z
  && (0 <=? RawSample.horizon r)%Z && (RawSample.horizon r <? 16)%Z
  && (fst bs =? b0)%Z && (snd bs =? b1)%Z.

End Codec.

(** ** Further properties of the engine and the codec *)

Module Props.

(** The engine after a sequence of [consume(now, data)] calls on a fresh
    one: each packet is a timestamp and two bytes. *)
Definition consume_raw_all (packets : list (Q * (Z * Z))) : Photometer.t :=
  fold_left (fun p pk => Photometer.consume_raw (fst pk) (snd pk) p)
            packets Photometer.empty.

(** The lower map holds lower bounds only, the upper map upper bounds
    only. *)
Definition signed (p : Photometer.t) : Prop :=
  Forall (fun kv => Sample.sign (snd kv) = false) (Photometer.lower_by_end p) /\
  Forall (fun kv => Sample.sign (snd kv) = true) (Photometer.upper_by_end p).

(** Every value stored in [m] is between [lo] and [hi]. *)
Definition values_within (lo hi : Q) (m : Photometer.MapT) : Prop :=
  Forall (fun kv => lo <= Sample.value (snd kv) /\ Sample.value (snd kv) <= hi) m.

(** All the elements of both maps. *)
Definition stored (p : Photometer.t) : Photometer.MapT :=
  Photometer.lower_by_end p ++ Photometer.upper_by_end p.

(** One step of the loop of [lower()], with the result of its inner loop
    given as [keep]. *)
Definition step_lower (keep : Sample.t -> bool) (eff : Sample.t)
    (kv : Q * Sample.t) : Sample.t :=
  if keep (snd kv) then Sample.resolve_lower eff (snd kv) else eff.

(** One step of the loop of [upper()]. *)
Definition step_upper (keep : Sample.t -> bool) (eff : Sample.t)
    (kv : Q * Sample.t) : Sample.t :=
  if keep (snd kv) then Sample.resolve_upper eff (snd kv) else eff.

(** The [n] integers from [lo] upwards. *)
Definition zrange (lo : Z) (n : nat) : list Z :=
  map (fun i => (lo + Z.of_nat i)%Z) (seq 0 n).

(** The bytes of a [RawSample] are bytes, and reading them gives the fields
    back. *)
Definition fields_roundtrip (r : RawSample.t) : bool :=
  let bs := RawSample.to_bytes r in
  let r' := RawSample.of_bytes (fst bs) (snd bs) in
  (0 <=? fst bs)%Z && (fst bs <? 256)%Z && (0 <=? snd bs)%Z && (snd bs <? 256)%Z
  && (RawSample.confidence r' =? RawSample.confidence r)%Z
  && Bool.eqb (RawSample.clear r') (RawSample.clear r)
  && (RawSample.value r' =? RawSample.value r)%Z
  && Bool.eqb (RawSample.sign r') (RawSample.sign r)
  && (RawSample.horizon r' =? RawSample.horizon r)%Z.

End Props.

(** ** The engine with the position of each stored sample in the history *)

Module Tagged.

(** A map whose elements also carry the number of the [consume] call that
    inserted them; the code does not store it. *)
Definition MapT : Type := list (Q * (nat * Sample.t)).

Definition tag (kv : Q * (nat * Sample.t)) : nat := fst (snd kv).
Definition sample (kv : Q * (nat * Sample.t)) : Sample.t := snd (snd kv).

(** The map the code has: the numbers dropped. *)
Definition untag (m : MapT) : Photometer.MapT :=
  map (fun kv => (fst kv, sample kv)) m.

Fixpoint upper_bound (k : Q) (m : MapT) : MapT :=
  match m with
  | [] => []
  | kv :: m' => if Qltb k (fst kv) then m else upper_bound k m'
  end.

Fixpoint emplace (k : Q) (v : nat * Sample.t) (m : MapT) : MapT :=
  match m with
  | [] => [(k, v)]
  | kv :: m' =>
    if Qltb k (fst kv) then (k, v) :: m else kv :: emplace k v m'
  end.

Record t : Type := mk {
  lower_by_end : MapT;
  upper_by_end : MapT
}.

Definition empty : t := {| lower_by_end := []; upper_by_end := [] |}.

Definition erase_old (now : Q) (p : t) : t :=
  {| lower_by_end := upper_bound now (lower_by_end p);
     upper_by_end := upper_bound now (upper_by_end p) |}.

Definition clear_or_erase (s : Sample.t) (p : t) : t :=
  if Sample.should_clear s then empty else erase_old (Sample.start s) p.

Definition insert_unless_subset (n : nat) (s : Sample.t) (target : MapT) : MapT :=
  match find (fun other => Sample.is_superset_of (sample other) s) target with
  | Some _ => target
  | None => emplace (Sample.end' s) (n, s) target
  end.

(** The [n]-th [consume] call. *)
Definition consume (n : nat) (s : Sample.t) (p : t) : t :=
  let p' := clear_or_erase s p in
  if Sample.sign s
  then {| lower_by_end := lower_by_end p';
          upper_by_end := insert_unless_subset n s (upper_by_end p') |}
  else {| lower_by_end := insert_unless_subset n s (lower_by_end p');
          upper_by_end := upper_by_end p' |}.

(** The calls numbered from [n] on. *)
Fixpoint consume_from (n : nat) (samples : list Sample.t) (p : t) : t :=
  match samples with
  | [] => p
  | s :: rest => consume_from (S n) rest (consume n s p)
  end.

Definition consume_all (samples : list Sample.t) : t :=
  consume_from 0 samples empty.

(** The engine the code has. *)
Definition erase (p : t) : Photometer.t :=
  {| Photometer.lower_by_end := untag (lower_by_end p);
     Photometer.upper_by_end := untag (upper_by_end p) |}.

(** Among the elements of [m], one inserted by an earlier call is not a
    superset of one inserted by a later call. *)
Definition earlier_not_superset (m : MapT) : Prop :=
  forall o e, In o m -> In e m -> (tag o < tag e)%nat ->
    Sample.is_superset_of (sample o) (sample e) = false.

(** The elements of [m] are samples of the history, at the position of
    their number. *)
Definition from_history (samples : list Sample.t) (m : MapT) : Prop :=
  forall kv, In kv m -> nth_error samples (tag kv) = Some (sample kv).

(** What a map keeps through the call numbered [n]: its elements are
    numbered below [n], satisfy [P], and an earlier one is not a superset of
    a later one. *)
Definition ok (P : Q * (nat * Sample.t) -> Prop) (n : nat) (m : MapT) : Prop :=
  Forall (fun kv => (tag kv < n)%nat /\ P kv) m /\ earlier_not_superset m.

End Tagged.

(** ** Checks against the repository's own tests *)

(** [test_serialise]: the bytes of a known [RawSample]; the initialiser
    [0b11110000] of the signed 8-bit field reads back as -16. *)
Example test_serialise :
  sext8 240 = (-16)%Z /\
  RawSample.to_bytes (RawSample.mk 2 false (sext8 240) false 5) = (130, 87)%Z.
Proof. split; reflexivity. Qed.

(** [test_deserialise]: the sample decoded from those bytes; the end is
    compared as [is_close] does. *)
Example test_deserialise :
  let samp := Sample.from_raw 0.5 (130, 87)%Z in
  Qabs (Sample.end' samp - (0.5 + 0.0165 * 32)) < 1e-12 /\
  Sample.sign samp = false /\
  Sample.value samp == 50e3 - 390 * 16 /\ Sample.should_clear samp = false /\
  Sample.confidence samp = 2%Z.
Proof. vm_compute. intuition congruence. Qed.

(** [test_simple_lower], the steps up to the clearing sample. *)
Example test_simple_lower :
  let samp0 := Sample.mk 1.1 1.5 false 65e3 false 0 in
  let samp1 := Sample.mk 1.2 1.8 false 70e3 false 0 in
  let samp2 := Sample.mk 2.2 2.5 false 50e3 false 0 in
  let samp3 := Sample.mk 2.3 2.5 false 60e3 true 0 in
  let m1 := Photometer.consume samp0 Photometer.empty in
  let m2 := Photometer.consume samp1 m1 in
  let m3 := Photometer.consume samp2 m2 in
  let m4 := Photometer.consume samp3 m3 in
  Photometer.size m1 = 1%nat /\ Photometer.estimate_at 1.2 m1 == 82500 /\
  Photometer.size m2 = 2%nat /\ Photometer.estimate_at 1.3 m2 == 85e3 /\
  Photometer.estimate_at 1.6 m2 == 85e3 /\ Photometer.estimate_at 2.0 m2 == 50e3 /\
  Photometer.size m3 = 1%nat /\ Photometer.estimate_at 2.3 m3 == 75e3 /\
  Photometer.size m4 = 1%nat /\ Photometer.estimate_at 2.4 m4 == 80e3 /\
  Photometer.estimate_at 2.5 m4 == 50e3.
Proof. vm_compute. intuition congruence. Qed.

(** [test_simple_upper], the steps up to the clearing sample. *)
Example test_simple_upper :
  let samp0 := Sample.mk 1.1 1.5 true 40e3 false 0 in
  let samp1 := Sample.mk 1.2 1.8 true 30e3 false 0 in
  let samp2 := Sample.mk 2.2 2.5 true 50e3 false 0 in
  let samp3 := Sample.mk 2.3 2.5 true 60e3 true 0 in
  let m2 := Photometer.consume_all [samp0; samp1] in
  let m4 := Photometer.consume_all [samp0; samp1; samp2; samp3] in
  Photometer.size m2 = 2%nat /\ Photometer.estimate_at 1.3 m2 == 15e3 /\
  Photometer.estimate_at 1.6 m2 == 15e3 /\ Photometer.estimate_at 2.0 m2 == 50e3 /\
  Photometer.size m4 = 1%nat /\ Photometer.estimate_at 2.4 m4 == 30e3 /\
  Photometer.estimate_at 2.5 m4 == 50e3.
Proof. vm_compute. intuition congruence. Qed.

(** [test_superset] and [test_double_bound]. *)
Example test_superset :
  let sampl := Sample.mk 1.1 1.5 false 0 false 0 in
  let samp0 := Sample.mk 1.1 1.5 true 40e3 false 0 in
  let samp1 := Sample.mk 1.2 1.4 true 45e3 false 0 in
  let m := Photometer.consume_all [sampl; samp0; samp1] in
  Photometer.size m = 2%nat /\ Photometer.estimate_at 1.3 m == 20e3.
Proof. vm_compute. intuition congruence. Qed.

Example test_double_bound :
  let samp0 := Sample.mk 1.0 1.5 false 20e3 false 0 in
  let samp1 := Sample.mk 1.0 1.5 true 40e3 false 0 in
  let m := Photometer.consume_all [samp0; samp1] in
  Photometer.size m = 2%nat /\ Photometer.estimate_at 1.1 m == 30e3.
Proof. vm_compute. intuition congruence. Qed.

(** [test_override_time]: with equal confidence the earlier start wins. *)
Example test_override_time :
  let samp0 := Sample.mk 1.0 2.0 false 60e3 false 2 in
  let samp1 := Sample.mk 1.1 2.0 true 30e3 false 2 in
  let m := Photometer.consume_all [samp0; samp1] in
  Photometer.size m = 2%nat /\ Photometer.estimate_at 1.2 m == 80e3.
Proof. vm_compute. intuition congruence. Qed.

(** ** Comparisons *)

Lemma Qltb_lt (a b : Q) : Qltb a b = true <-> a < b.
Proof.
  unfold Qltb. rewrite negb_true_iff, <- not_true_iff_false, Qle_bool_iff.
  split; [apply Qnot_le_lt | apply Qlt_not_le].
Qed.

Lemma Qltb_ge (a b : Q) : Qltb a b = false <-> b <= a.
Proof.
  unfold Qltb. rewrite negb_false_iff. apply Qle_bool_iff.
Qed.

Lemma Qleb_le (a b : Q) : Qleb a b = true <-> a <= b.
Proof. apply Qle_bool_iff. Qed.

Lemma Qleb_gt (a b : Q) : Qleb a b = false <-> b < a.
Proof.
  unfold Qleb. rewrite <- not_true_iff_false, Qle_bool_iff.
  split; [apply Qnot_le_lt | apply Qlt_not_le].
Qed.

(** ** The arbitration predicates *)

Lemma conflicts_iff (a b : Sample.t) :
  Sample.conflicts a b = true <->
  (Sample.sign a = true /\ Sample.sign b = false /\
   Sample.value a < Sample.value b) \/
  (Sample.sign a = false /\ Sample.sign b = true /\
   Sample.value b < Sample.value a).
Proof.
  unfold Sample.conflicts, Sample.sign, Sample.value.
  rewrite orb_true_iff, !andb_true_iff, !negb_true_iff, !Qltb_lt. tauto.
Qed.

Lemma is_superset_of_iff (o e : Sample.t) :
  Sample.is_superset_of o e = true <->
  Sample.end' e <= Sample.end' o /\
  ((Sample.sign o = false /\ Sample.sign e = false /\
    Sample.value e <= Sample.value o) \/
   (Sample.sign o = true /\ Sample.sign e = true /\
    Sample.value o <= Sample.value e)).
Proof.
  unfold Sample.is_superset_of, Sample.sign, Sample.value, Sample.end'.
  rewrite andb_true_iff, orb_true_iff, !andb_true_iff, !negb_true_iff, !Qleb_le.
  tauto.
Qed.

(** C2.  [overrides(a, b)] holds exactly when [a] and [b] have opposite
    directions, the lower-direction one asserts a value strictly greater than
    the upper-direction one, and [a] has the greater confidence or, at equal
    confidence, the earlier start. *)
Theorem overrides_iff (a b : Sample.t) :
  Sample.overrides a b = true <->
  ((Sample.sign a = false /\ Sample.sign b = true /\
    Sample.value b < Sample.value a) \/
   (Sample.sign a = true /\ Sample.sign b = false /\
    Sample.value a < Sample.value b)) /\
  ((Sample.confidence a > Sample.confidence b)%Z \/
   (Sample.confidence a = Sample.confidence b /\
    Sample.start a < Sample.start b)).
Proof.
  unfold Sample.overrides.
  destruct (Sample.conflicts a b) eqn:Hc.
  - apply conflicts_iff in Hc.
    unfold Sample.confidence, Sample.start.
    rewrite orb_true_iff, andb_true_iff, Z.ltb_lt, Z.eqb_eq, Qltb_lt.
    split; [intros H; split; [tauto | ] | intros [_ H] ];
      (destruct H as [H | H]; [left; lia | right; exact H]).
  - split; [discriminate | ].
    intros [H _]. apply not_true_iff_false in Hc. exfalso. apply Hc.
    apply conflicts_iff. tauto.
Qed.

(** ** Literal scenarios *)

(** C1.  After the lower sample (1.0, 2.0, value 40000, confidence 0) and the
    upper sample (1.0, 1.5, value 20000, confidence 1), the estimate at 1.2 is
    10000: the lower sample is overridden, the lower bound is the universal
    one, 0, and the upper bound is 20000.  The estimate at 1.7 is 70000: the
    upper sample is no longer in the snapshot, the bounds are 40000 and the
    universal 100000. *)
Theorem override_confidence_scenario :
  let samp0 := Sample.mk 1.0 2.0 false 40000 false 0 in
  let samp1 := Sample.mk 1.0 1.5 true 20000 false 1 in
  let meter := Photometer.consume samp1 (Photometer.consume samp0 Photometer.empty) in
  (Photometer.estimate_at 1.2 meter == 10000 /\
   Photometer.lower (Photometer.as_of meter 1.2) == 0 /\
   Photometer.upper (Photometer.as_of meter 1.2) == 20000) /\
  (Photometer.estimate_at 1.7 meter == 70000 /\
   Photometer.upper_by_end (Photometer.as_of meter 1.7) = [] /\
   Photometer.lower (Photometer.as_of meter 1.7) == 40000 /\
   Photometer.upper (Photometer.as_of meter 1.7) == 100000).
Proof.
  cbv zeta. repeat split; vm_compute; reflexivity.
Qed.

(** ** The clearing branch of [consume] *)

Lemma consume_clear (e : Sample.t) (p : Photometer.t) :
  Sample.should_clear e = true ->
  Photometer.consume e p =
  if Sample.sign e
  then Photometer.mk [] [(Sample.end' e, e)]
  else Photometer.mk [(Sample.end' e, e)] [].
Proof.
  intros Hc. unfold Photometer.consume, Photometer.clear_or_erase.
  rewrite Hc. destruct (Sample.sign e); reflexivity.
Qed.

(** C6, as the code has it.  A clearing sample empties both maps, skips the
    erasure of old samples, and is then itself inserted into the map of its
    sign: afterwards that map holds the sample alone and the other map is
    empty. *)
Theorem consume_clear_stores_sample (e : Sample.t) (p : Photometer.t) :
  Sample.should_clear e = true ->
  Inv.target e (Photometer.consume e p) = [(Sample.end' e, e)] /\
  Inv.target e (Photometer.consume e p) =
    Photometer.insert_unless_subset e [] /\
  (if Sample.sign e
   then Photometer.lower_by_end (Photometer.consume e p)
   else Photometer.upper_by_end (Photometer.consume e p)) = [] /\
  Photometer.size (Photometer.consume e p) = 1%nat.
Proof.
  intros Hc. rewrite (consume_clear e p Hc). unfold Inv.target.
  destruct (Sample.sign e); repeat split; reflexivity.
Qed.

Lemma consume_clear_stores_sample_witness :
  let e := Sample.mk 2.3 2.5 false 60e3 true 0 in
  let p := Photometer.consume (Sample.mk 2.2 2.5 false 50e3 false 0) Photometer.empty in
  Inv.target e (Photometer.consume e p) = [(Sample.end' e, e)] /\
  Inv.target e (Photometer.consume e p) =
    Photometer.insert_unless_subset e [] /\
  (if Sample.sign e
   then Photometer.lower_by_end (Photometer.consume e p)
   else Photometer.upper_by_end (Photometer.consume e p)) = [] /\
  Photometer.size (Photometer.consume e p) = 1%nat.
Proof.
  intros e p. apply (consume_clear_stores_sample e p). reflexivity.
Defined.

(** C6, as stated, fails: after the clearing sample of [test_simple_lower]
    the lower map is not empty. *)
Lemma consume_clear_not_empty :
  let e := Sample.mk 2.3 2.5 false 60e3 true 0 in
  let p := Photometer.consume (Sample.mk 2.2 2.5 false 50e3 false 0) Photometer.empty in
  Sample.should_clear e = true /\
  ~ (Photometer.lower_by_end (Photometer.consume e p) = [] /\
     Photometer.upper_by_end (Photometer.consume e p) = []).
Proof.
  cbv zeta. split; [reflexivity | ].
  intros [H _]. vm_compute in H. discriminate H.
Qed.

(** C7.  After a non-clearing sample and then a clearing one, [size()] is 1:
    the engine holds the clearing sample and nothing else. *)
Theorem clear_scenario_size (p : Photometer.t) (a b : Sample.t) :
  Sample.should_clear a = false ->
  Sample.should_clear b = true ->
  let q := Photometer.consume b (Photometer.consume a p) in
  Photometer.size q = 1%nat /\
  Photometer.lower_by_end q ++ Photometer.upper_by_end q = [(Sample.end' b, b)].
Proof.
  intros _ Hb q. subst q. rewrite (consume_clear b _ Hb).
  destruct (Sample.sign b); split; reflexivity.
Qed.

Lemma clear_scenario_size_witness :
  let a := Sample.mk 2.2 2.5 false 50e3 false 0 in
  let b := Sample.mk 2.3 2.5 false 60e3 true 0 in
  let q := Photometer.consume b (Photometer.consume a Photometer.empty) in
  Photometer.size q = 1%nat /\
  Photometer.lower_by_end q ++ Photometer.upper_by_end q = [(Sample.end' b, b)].
Proof.
  intros a b. apply (clear_scenario_size Photometer.empty a b); reflexivity.
Defined.

(** ** The superset scan of [consume] *)

Lemma insert_unless_subset_found (e : Sample.t) (m : Photometer.MapT) o :
  In o m -> Sample.is_superset_of (snd o) e = true ->
  Photometer.insert_unless_subset e m = m.
Proof.
  intros Hin Hsup. unfold Photometer.insert_unless_subset.
  destruct (find _ m) eqn:Hf; [reflexivity | ].
  apply (find_none _ _ Hf) in Hin. simpl in Hin. congruence.
Qed.

(** C5.  When the map selected by the sign of a non-clearing sample [e]
    holds, after old samples were erased, an element [o] with
    [o.end >= e.end] that is at least as tight a bound of the same direction,
    [e] is not inserted: the engine is exactly as the erasure left it. *)
Theorem consume_subset_noop (e : Sample.t) (p : Photometer.t) o :
  Sample.should_clear e = false ->
  In o (Inv.target e (Photometer.erase_old (Sample.start e) p)) ->
  Sample.end' e <= Sample.end' (snd o) ->
  (Sample.sign (snd o) = false /\ Sample.sign e = false /\
   Sample.value e <= Sample.value (snd o)) \/
  (Sample.sign (snd o) = true /\ Sample.sign e = true /\
   Sample.value (snd o) <= Sample.value e) ->
  Photometer.consume e p = Photometer.erase_old (Sample.start e) p /\
  Photometer.size (Photometer.consume e p) =
  Photometer.size (Photometer.erase_old (Sample.start e) p).
Proof.
  intros Hc Hin Hend Hval.
  assert (Hsup : Sample.is_superset_of (snd o) e = true)
    by (apply is_superset_of_iff; split; assumption).
  assert (Heq : Photometer.consume e p = Photometer.erase_old (Sample.start e) p).
  { unfold Photometer.consume, Photometer.clear_or_erase. rewrite Hc.
    unfold Inv.target in Hin.
    destruct (Sample.sign e);
      rewrite (insert_unless_subset_found e _ o Hin Hsup); reflexivity. }
  split; [exact Heq | rewrite Heq; reflexivity].
Qed.

Lemma consume_subset_noop_witness :
  let samp0 := Sample.mk 1.1 1.5 true 40e3 false 0 in
  let samp1 := Sample.mk 1.2 1.4 true 45e3 false 0 in
  let p := Photometer.consume samp0 Photometer.empty in
  Photometer.consume samp1 p = Photometer.erase_old (Sample.start samp1) p /\
  Photometer.size (Photometer.consume samp1 p) =
  Photometer.size (Photometer.erase_old (Sample.start samp1) p).
Proof.
  intros samp0 samp1 p.
  apply (consume_subset_noop samp1 p (Sample.end' samp0, samp0)).
  - reflexivity.
  - vm_compute. left. reflexivity.
  - vm_compute. discriminate.
  - right. repeat split. vm_compute. discriminate.
Defined.

(** ** The multimap operations on well-formed maps *)

Section MapLemmas.

Implicit Types (m : Photometer.MapT) (k now : Q) (v e : Sample.t).

Lemma upper_bound_suffix now m :
  exists pre, m = pre ++ Photometer.upper_bound now m.
Proof.
  induction m as [ | kv m IH]; simpl.
  - exists []. reflexivity.
  - destruct (Qltb now (fst kv)).
    + exists []. reflexivity.
    + destruct IH as [pre IH]. exists (kv :: pre). simpl. now rewrite <- IH.
Qed.

Lemma upper_bound_incl now m x :
  In x (Photometer.upper_bound now m) -> In x m.
Proof.
  destruct (upper_bound_suffix now m) as [pre H]. intros Hin.
  rewrite H. apply in_or_app. now right.
Qed.

Lemma sorted_tail_above now kv m :
  Inv.sorted_by_key (kv :: m) -> now < fst kv ->
  Forall (fun x => Qltb now (fst x) = true) (kv :: m).
Proof.
  intros Hs Hlt. apply StronglySorted_inv in Hs. destruct Hs as [_ Hall].
  constructor; [now apply Qltb_lt | ].
  eapply Forall_impl; [ | exact Hall]. simpl. intros x Hx.
  apply Qltb_lt. eapply Qlt_le_trans; eassumption.
Qed.

Lemma filter_all {A} (f : A -> bool) (l : list A) :
  Forall (fun x => f x = true) l -> filter f l = l.
Proof.
  induction 1 as [ | x l Hx _ IH]; simpl; [reflexivity | ].
  now rewrite Hx, IH.
Qed.

(** On a sorted map, [upper_bound] keeps exactly the elements with a
    greater key. *)
Lemma upper_bound_filter now m :
  Inv.sorted_by_key m ->
  Photometer.upper_bound now m = filter (fun kv => Qltb now (fst kv)) m.
Proof.
  induction m as [ | kv m IH]; intros Hs; [reflexivity | ].
  cbn [Photometer.upper_bound].
  destruct (Qltb now (fst kv)) eqn:Hk.
  - symmetry. apply filter_all. apply sorted_tail_above; [exact Hs | ].
    now apply Qltb_lt.
  - cbn [filter]. rewrite Hk. apply IH.
    apply StronglySorted_inv in Hs. tauto.
Qed.

Lemma upper_bound_live now m :
  Inv.map_ok m -> Photometer.upper_bound now m = Inv.live now m.
Proof.
  intros [Hs Hk]. rewrite (upper_bound_filter now m Hs). unfold Inv.live.
  apply filter_ext_in. intros kv Hin.
  unfold Inv.keyed_by_end in Hk. rewrite Forall_forall in Hk.
  now rewrite (Hk kv Hin).
Qed.

Lemma upper_bound_ok now m :
  Inv.map_ok m -> Inv.map_ok (Photometer.upper_bound now m).
Proof.
  intros [Hs Hk]. unfold Inv.map_ok, Inv.sorted_by_key, Inv.keyed_by_end in *.
  induction m as [ | kv m IH]; simpl; [split; assumption | ].
  destruct (Qltb now (fst kv)); [split; assumption | ].
  apply IH; [apply StronglySorted_inv in Hs; tauto | now inversion Hk].
Qed.

Lemma emplace_In k v m x :
  In x (Photometer.emplace k v m) <-> x = (k, v) \/ In x m.
Proof.
  induction m as [ | kv m IH]; simpl.
  - intuition congruence.
  - destruct (Qltb k (fst kv)); simpl; [intuition congruence | ].
    rewrite IH. intuition congruence.
Qed.

Lemma emplace_length k v m :
  length (Photometer.emplace k v m) = S (length m).
Proof.
  induction m as [ | kv m IH]; simpl; [reflexivity | ].
  destruct (Qltb k (fst kv)); simpl; [reflexivity | now rewrite IH].
Qed.

Lemma emplace_ok v m :
  Inv.map_ok m -> Inv.map_ok (Photometer.emplace (Sample.end' v) v m).
Proof.
  intros [Hs Hk]. unfold Inv.map_ok, Inv.sorted_by_key, Inv.keyed_by_end in *.
  induction m as [ | kv m IH]; simpl.
  - split; repeat constructor.
  - destruct (Qltb (Sample.end' v) (fst kv)) eqn:Hlt.
    + split; [ | constructor; [reflexivity | exact Hk] ].
      constructor; [exact Hs | ].
      apply Qltb_lt in Hlt.
      pose proof (sorted_tail_above _ _ _ Hs Hlt) as Hall.
      eapply Forall_impl; [ | exact Hall]. simpl. intros x Hx.
      apply Qltb_lt in Hx. now apply Qlt_le_weak.
    + apply Qltb_ge in Hlt. apply StronglySorted_inv in Hs.
      destruct Hs as [Hs Hall]. inversion Hk as [ | ? ? Hkv Hk']; subst.
      destruct (IH Hs Hk') as [IHs IHk].
      split; [ | constructor; assumption].
      constructor; [exact IHs | ].
      apply Forall_forall. intros x Hx. apply emplace_In in Hx.
      destruct Hx as [-> | Hx]; [exact Hlt | ].
      rewrite Forall_forall in Hall. now apply Hall.
Qed.

Lemma insert_unless_subset_ok e m :
  Inv.map_ok m -> Inv.map_ok (Photometer.insert_unless_subset e m).
Proof.
  intros H. unfold Photometer.insert_unless_subset.
  destruct (find _ m); [exact H | now apply emplace_ok].
Qed.

End MapLemmas.

Lemma empty_ok : Inv.ok Photometer.empty.
Proof. repeat split; constructor. Qed.

Lemma erase_old_ok now p : Inv.ok p -> Inv.ok (Photometer.erase_old now p).
Proof. intros [Hl Hu]. split; simpl; now apply upper_bound_ok. Qed.

Lemma consume_ok e p : Inv.ok p -> Inv.ok (Photometer.consume e p).
Proof.
  intros Hp.
  assert (Hp' : Inv.ok (Photometer.clear_or_erase e p)).
  { unfold Photometer.clear_or_erase.
    destruct (Sample.should_clear e); [apply empty_ok | now apply erase_old_ok]. }
  destruct Hp' as [Hl Hu]. unfold Photometer.consume.
  destruct (Sample.sign e); split; simpl;
    try assumption; now apply insert_unless_subset_ok.
Qed.

(** An invariant of [consume] that holds of the fresh engine holds after
    every sequence of [consume] calls. *)
Lemma consume_all_ind (P : Photometer.t -> Prop) :
  P Photometer.empty ->
  (forall e p, P p -> P (Photometer.consume e p)) ->
  forall samples, P (Photometer.consume_all samples).
Proof.
  intros H0 Hstep samples. unfold Photometer.consume_all.
  generalize Photometer.empty H0.
  induction samples as [ | e samples IH]; intros p Hp; simpl; [exact Hp | ].
  apply IH. now apply Hstep.
Qed.

Lemma consume_all_ok samples : Inv.ok (Photometer.consume_all samples).
Proof. apply consume_all_ind; [apply empty_ok | apply consume_ok]. Qed.

(** ** Expiry *)

Lemma live_In now m kv :
  In kv (Inv.live now m) <-> In kv m /\ now < Sample.end' (snd kv).
Proof. unfold Inv.live. rewrite filter_In, Qltb_lt. reflexivity. Qed.

Lemma as_of_live p now :
  Inv.ok p ->
  Photometer.as_of p now =
  Photometer.mk (Inv.live now (Photometer.lower_by_end p))
                (Inv.live now (Photometer.upper_by_end p)).
Proof.
  intros [Hl Hu]. unfold Photometer.as_of.
  now rewrite (upper_bound_live now _ Hl), (upper_bound_live now _ Hu).
Qed.

Lemma erase_old_live p now :
  Inv.ok p ->
  Photometer.erase_old now p =
  Photometer.mk (Inv.live now (Photometer.lower_by_end p))
                (Inv.live now (Photometer.upper_by_end p)).
Proof. exact (as_of_live p now). Qed.

(** C3.  Validity is the half-open interval from [start] to [end].  On an
    engine reached by [consume] calls, a non-clearing [consume(e)] keeps in
    both maps exactly the elements whose [end] is greater than [e.start]
    (those with [end <= e.start] are removed) before the scan and insertion
    of [e]; and [estimate(t)] is computed on the snapshot that holds exactly
    the elements whose [end] is greater than [t], so a stored element with
    [end = T] is in it for every [t < T] and out of it for every [t >= T]. *)
Theorem expiry_half_open (samples : list Sample.t) (e : Sample.t) :
  Sample.should_clear e = false ->
  let p := Photometer.consume_all samples in
  let lo := Photometer.lower_by_end p in
  let up := Photometer.upper_by_end p in
  Photometer.consume e p =
    (if Sample.sign e
     then Photometer.mk (Inv.live (Sample.start e) lo)
            (Photometer.insert_unless_subset e (Inv.live (Sample.start e) up))
     else Photometer.mk
            (Photometer.insert_unless_subset e (Inv.live (Sample.start e) lo))
            (Inv.live (Sample.start e) up)) /\
  (forall kv, In kv (Inv.live (Sample.start e) lo) <->
              In kv lo /\ ~ Sample.end' (snd kv) <= Sample.start e) /\
  (forall kv, In kv (Inv.live (Sample.start e) up) <->
              In kv up /\ ~ Sample.end' (snd kv) <= Sample.start e) /\
  forall t : Q,
    Photometer.estimate_at t p =
      Photometer.estimate (Photometer.mk (Inv.live t lo) (Inv.live t up)) /\
    forall kv T, In kv lo \/ In kv up -> Sample.end' (snd kv) == T ->
      let snapshot := Photometer.as_of p t in
      let stored := Photometer.lower_by_end snapshot
                      ++ Photometer.upper_by_end snapshot in
      (t < T -> In kv stored) /\ (T <= t -> ~ In kv stored).
Proof.
  intros Hc p lo up.
  pose proof (consume_all_ok samples) as Hok. fold p in Hok.
  assert (Hnot : forall a b : Q, a < b <-> ~ b <= a)
    by (intros a b; split; [apply Qlt_not_le | apply Qnot_le_lt]).
  split; [ | split; [ | split] ].
  - unfold Photometer.consume, Photometer.clear_or_erase. rewrite Hc.
    rewrite (erase_old_live p _ Hok). reflexivity.
  - intros kv. rewrite live_In, Hnot. reflexivity.
  - intros kv. rewrite live_In, Hnot. reflexivity.
  - intros t. split.
    + unfold Photometer.estimate_at. now rewrite (as_of_live p t Hok).
    + intros kv T Hin HT snapshot stored. subst stored snapshot.
      rewrite (as_of_live p t Hok). cbn [Photometer.lower_by_end Photometer.upper_by_end].
      split.
      * intros Hlt. apply in_or_app.
        destruct Hin as [Hin | Hin]; [left | right];
          apply live_In; (split; [exact Hin | now rewrite HT]).
      * intros Hge Hin'. apply in_app_or in Hin'.
        assert (Hlt : t < Sample.end' (snd kv))
          by (destruct Hin' as [H | H]; apply live_In in H; tauto).
        rewrite HT in Hlt. now apply (Qlt_not_le _ _ Hlt).
Qed.

Lemma expiry_half_open_witness :
  let samp2 := Sample.mk 2.2 2.5 false 50e3 false 0 in
  let samp3 := Sample.mk 2.4 2.6 true 60e3 false 0 in
  let p := Photometer.consume_all [samp2] in
  Photometer.consume samp3 p =
    Photometer.mk
      (Inv.live 2.4 (Photometer.lower_by_end p))
      (Photometer.insert_unless_subset samp3
         (Inv.live 2.4 (Photometer.upper_by_end p))) /\
  (Photometer.estimate_at 2.5 p =
     Photometer.estimate
       (Photometer.mk (Inv.live 2.5 (Photometer.lower_by_end p))
                      (Inv.live 2.5 (Photometer.upper_by_end p)))) /\
  ~ In (2.5, samp2)
       (Photometer.lower_by_end (Photometer.as_of p 2.5)
        ++ Photometer.upper_by_end (Photometer.as_of p 2.5)).
Proof.
  intros samp2 samp3 p.
  pose proof (expiry_half_open [samp2] samp3 eq_refl) as H.
  cbv zeta in H. destruct H as [Hcons [_ [_ Ht] ] ].
  split; [exact Hcons | ].
  destruct (Ht 2.5) as [Hest Hsnap].
  split; [exact Hest | ].
  apply (Hsnap (2.5, samp2) 2.5).
  - left. left. reflexivity.
  - reflexivity.
  - apply Qle_refl.
Defined.

(** The boundary on an engine that holds one sample: before the [end] of the
    sample the snapshot is the engine itself, from the [end] on it is the
    fresh engine, whose estimate is 50000. *)
Lemma single_sample_boundary (x : Sample.t) (t : Q) :
  let p := Photometer.consume x Photometer.empty in
  (t < Sample.end' x -> Photometer.as_of p t = p) /\
  (Sample.end' x <= t ->
   Photometer.as_of p t = Photometer.empty /\ Photometer.estimate_at t p == 50e3).
Proof.
  intros p.
  assert (Hp : p = if Sample.sign x
                   then Photometer.mk [] [(Sample.end' x, x)]
                   else Photometer.mk [(Sample.end' x, x)] []).
  { unfold p, Photometer.consume, Photometer.clear_or_erase.
    destruct (Sample.should_clear x), (Sample.sign x); reflexivity. }
  split.
  - intros Hlt. apply Qltb_lt in Hlt. rewrite Hp.
    destruct (Sample.sign x); unfold Photometer.as_of; simpl; now rewrite Hlt.
  - intros Hge. apply Qltb_ge in Hge.
    assert (He : Photometer.as_of p t = Photometer.empty)
      by (rewrite Hp; destruct (Sample.sign x); unfold Photometer.as_of; simpl;
          now rewrite Hge).
    split; [exact He | ]. unfold Photometer.estimate_at. rewrite He. reflexivity.
Qed.

(** ** Redundant elements *)

Section TaggedLemmas.

Implicit Types (m : Tagged.MapT) (s e : Sample.t) (n : nat).

Lemma untag_upper_bound k m :
  Tagged.untag (Tagged.upper_bound k m)
  = Photometer.upper_bound k (Tagged.untag m).
Proof.
  induction m as [ | kv m IH]; [reflexivity | ]. simpl.
  destruct (Qltb k (fst kv)); [reflexivity | exact IH].
Qed.

Lemma untag_emplace k n s m :
  Tagged.untag (Tagged.emplace k (n, s) m)
  = Photometer.emplace k s (Tagged.untag m).
Proof.
  induction m as [ | kv m IH]; [reflexivity | ]. simpl.
  destruct (Qltb k (fst kv)); [reflexivity | ]. simpl. now rewrite IH.
Qed.

Lemma find_untag (f : Sample.t -> bool) m :
  find (fun other => f (snd other)) (Tagged.untag m)
  = option_map (fun kv => (fst kv, Tagged.sample kv))
      (find (fun other => f (Tagged.sample other)) m).
Proof.
  induction m as [ | kv m IH]; [reflexivity | ]. simpl.
  destruct (f (Tagged.sample kv)); [reflexivity | exact IH].
Qed.

Lemma untag_insert_unless_subset n s m :
  Tagged.untag (Tagged.insert_unless_subset n s m)
  = Photometer.insert_unless_subset s (Tagged.untag m).
Proof.
  unfold Tagged.insert_unless_subset, Photometer.insert_unless_subset.
  rewrite (find_untag (fun o => Sample.is_superset_of o s) m).
  destruct (find _ m); [reflexivity | apply untag_emplace].
Qed.

Lemma erase_consume n s (p : Tagged.t) :
  Tagged.erase (Tagged.consume n s p) = Photometer.consume s (Tagged.erase p).
Proof.
  unfold Tagged.consume, Photometer.consume, Tagged.clear_or_erase,
    Photometer.clear_or_erase, Tagged.erase.
  destruct (Sample.should_clear s), (Sample.sign s); simpl;
    rewrite ?untag_insert_unless_subset, ?untag_upper_bound; reflexivity.
Qed.

Lemma erase_consume_from (samples : list Sample.t) n (p : Tagged.t) :
  Tagged.erase (Tagged.consume_from n samples p)
  = fold_left (fun q s => Photometer.consume s q) samples (Tagged.erase p).
Proof.
  revert n p. induction samples as [ | s rest IH]; intros n p; [reflexivity | ].
  simpl. now rewrite IH, erase_consume.
Qed.

Lemma tagged_upper_bound_incl k m x :
  In x (Tagged.upper_bound k m) -> In x m.
Proof.
  induction m as [ | kv m IH]; simpl; [tauto | ].
  destruct (Qltb k (fst kv)); [tauto | ]. intros H. right. now apply IH.
Qed.

Lemma tagged_emplace_In k v m x :
  In x (Tagged.emplace k v m) <-> x = (k, v) \/ In x m.
Proof.
  induction m as [ | kv m IH]; simpl.
  - intuition congruence.
  - destruct (Qltb k (fst kv)); simpl; [intuition congruence | ].
    rewrite IH. intuition congruence.
Qed.

Lemma tagged_ok_nil P n : Tagged.ok P n [].
Proof. split; [constructor | intros o e [] ]. Qed.

Lemma tagged_ok_upper_bound P n k m :
  Tagged.ok P n m -> Tagged.ok P n (Tagged.upper_bound k m).
Proof.
  intros [Hall Hpw]. split.
  - rewrite Forall_forall in *. intros x Hx.
    apply Hall. eapply tagged_upper_bound_incl; eassumption.
  - intros o e Ho He. apply Hpw; eapply tagged_upper_bound_incl; eassumption.
Qed.

Lemma tagged_ok_weaken P n m : Tagged.ok P n m -> Tagged.ok P (S n) m.
Proof.
  intros [Hall Hpw]. split; [ | exact Hpw].
  eapply Forall_impl; [ | exact Hall]. simpl. intros kv [H1 H2]. split; [lia | exact H2].
Qed.

Lemma tagged_ok_insert P n s m :
  P (Sample.end' s, (n, s)) ->
  Tagged.ok P n m -> Tagged.ok P (S n) (Tagged.insert_unless_subset n s m).
Proof.
  intros HP Hok. unfold Tagged.insert_unless_subset.
  destruct (find _ m) eqn:Hf; [now apply tagged_ok_weaken | ].
  destruct Hok as [Hall Hpw]. rewrite Forall_forall in Hall. split.
  - apply Forall_forall. intros x Hx. apply tagged_emplace_In in Hx.
    destruct Hx as [-> | Hx].
    + split; [unfold Tagged.tag; simpl; lia | exact HP].
    + destruct (Hall x Hx) as [H1 H2]. split; [lia | exact H2].
  - intros o e Ho He Hlt.
    apply tagged_emplace_In in Ho. apply tagged_emplace_In in He.
    destruct Ho as [-> | Ho], He as [-> | He].
    + unfold Tagged.tag in Hlt. simpl in Hlt. lia.
    + destruct (Hall e He) as [H1 _]. unfold Tagged.tag in Hlt, H1.
      simpl in Hlt. lia.
    + exact (find_none _ _ Hf o Ho).
    + now apply Hpw.
Qed.

End TaggedLemmas.

Lemma tagged_consume_ok (P : Q * (nat * Sample.t) -> Prop) n s (p : Tagged.t) :
  P (Sample.end' s, (n, s)) ->
  Tagged.ok P n (Tagged.lower_by_end p) /\ Tagged.ok P n (Tagged.upper_by_end p) ->
  Tagged.ok P (S n) (Tagged.lower_by_end (Tagged.consume n s p)) /\
  Tagged.ok P (S n) (Tagged.upper_by_end (Tagged.consume n s p)).
Proof.
  intros HP [Hl Hu].
  assert (H' : Tagged.ok P n (Tagged.lower_by_end (Tagged.clear_or_erase s p)) /\
               Tagged.ok P n (Tagged.upper_by_end (Tagged.clear_or_erase s p))).
  { unfold Tagged.clear_or_erase. destruct (Sample.should_clear s).
    - split; apply tagged_ok_nil.
    - split; simpl; now apply tagged_ok_upper_bound. }
  destruct H' as [Hl' Hu']. unfold Tagged.consume.
  destruct (Sample.sign s); split; simpl;
    first [now apply tagged_ok_insert | now apply tagged_ok_weaken].
Qed.

Lemma tagged_consume_from_ok (pre rest : list Sample.t) (p : Tagged.t) :
  let P := fun kv => nth_error (pre ++ rest) (Tagged.tag kv)
                     = Some (Tagged.sample kv) in
  Tagged.ok P (length pre) (Tagged.lower_by_end p) /\
  Tagged.ok P (length pre) (Tagged.upper_by_end p) ->
  let q := Tagged.consume_from (length pre) rest p in
  Tagged.ok P (length (pre ++ rest)) (Tagged.lower_by_end q) /\
  Tagged.ok P (length (pre ++ rest)) (Tagged.upper_by_end q).
Proof.
  revert pre p. induction rest as [ | s rest IH]; intros pre p P Hp q.
  - subst q. simpl. now rewrite app_nil_r.
  - subst q. simpl.
    assert (Heq : pre ++ s :: rest = (pre ++ [s]) ++ rest)
      by now rewrite <- app_assoc.
    assert (Hlen : S (length pre) = length (pre ++ [s]))
      by (rewrite length_app; simpl; lia).
    subst P. rewrite Heq, Hlen. apply IH. rewrite <- Hlen, <- Heq.
    apply tagged_consume_ok; [ | exact Hp].
    unfold Tagged.tag, Tagged.sample. simpl.
    rewrite nth_error_app2 by lia. now rewrite Nat.sub_diag.
Qed.

(** C4, as the code has it.  Number the [consume] calls of a history.  In
    the engine after them, every stored element is the sample of the call
    that inserted it, and of two elements stored in the same map the one
    inserted by the earlier call is not a superset of the one inserted by the
    later call: a sample is inserted only when no element then stored in its
    map is a superset of it.  Nothing is promised about a stored element and
    a later sample that is a superset of it. *)
Theorem earlier_never_superset_of_later (samples : list Sample.t) :
  let p := Tagged.consume_all samples in
  Tagged.erase p = Photometer.consume_all samples /\
  (Tagged.from_history samples (Tagged.lower_by_end p) /\
   Tagged.from_history samples (Tagged.upper_by_end p)) /\
  (Tagged.earlier_not_superset (Tagged.lower_by_end p) /\
   Tagged.earlier_not_superset (Tagged.upper_by_end p)).
Proof.
  intros p. split; [apply erase_consume_from | ].
  destruct (tagged_consume_from_ok [] samples Tagged.empty) as [Hl Hu].
  { split; apply tagged_ok_nil. }
  fold (Tagged.consume_all samples) in Hl, Hu. fold p in Hl, Hu.
  destruct Hl as [Al Pl], Hu as [Au Pu]. rewrite Forall_forall in Al, Au.
  split; [ | now split].
  split; intros kv Hin; [apply (Al kv Hin) | apply (Au kv Hin)].
Qed.

(** C4, as stated, fails: after the first two samples of [test_simple_lower]
    the lower map holds both, and the second is a superset of the first. *)
Lemma superset_pair_stored :
  let samp0 := Sample.mk 1.1 1.5 false 65e3 false 0 in
  let samp1 := Sample.mk 1.2 1.8 false 70e3 false 0 in
  ~ Inv.superset_free
      (Photometer.lower_by_end (Photometer.consume_all [samp0; samp1])).
Proof.
  intros samp0 samp1 H.
  specialize (H 1%nat 0%nat (1.8, samp1) (1.5, samp0)).
  vm_compute in H. discriminate H; [discriminate | reflexivity | reflexivity].
Qed.

(** ** Conflicts that nobody wins *)




(** ** Conversions from [double] to integers *)

Lemma Qtrunc_floor_ceiling (q : Q) :
  Qtrunc q = if Qle_bool 0 q then Qfloor q else Qceiling q.
Proof.
  destruct q as [n d]. unfold Qtrunc, Qceiling, Qfloor, Qle_bool. simpl.
  rewrite Z.mul_1_r.
  destruct (Z.leb_spec 0 n) as [Hn | Hn].
  - apply Z.quot_div_nonneg; lia.
  - replace (n ÷ Z.pos d)%Z with (- (- n ÷ Z.pos d))%Z
      by (rewrite Z.quot_opp_l by lia; lia).
    rewrite Z.quot_div_nonneg by lia. reflexivity.
Qed.

Lemma Qtrunc_comp (q q' : Q) : q == q' -> Qtrunc q = Qtrunc q'.
Proof.
  intros H. rewrite !Qtrunc_floor_ceiling.
  rewrite (Qleb_comp 0 0 (Qeq_refl 0) q q' H).
  now rewrite (Qfloor_comp q q' H), (Qceiling_comp q q' H).
Qed.

Lemma Qtrunc_inject_Z (z : Z) : Qtrunc (inject_Z z) = z.
Proof. unfold Qtrunc. simpl. apply Z.quot_1_r. Qed.


Lemma sext8_small (v : Z) : (-128 <= v < 128)%Z -> sext8 v = v.
Proof.
  intros Hv. unfold sext8.
  destruct (Z.ltb_spec (v mod 256) 128); Z.to_euclidean_division_equations; lia.
Qed.

Lemma Qtrunc_range (q : Q) (lo hi : Z) :
  (lo <= 0 <= hi)%Z -> inject_Z lo <= q -> q <= inject_Z hi ->
  (lo <= Qtrunc q <= hi)%Z.
Proof.
  intros Hz Hlo Hhi. rewrite Qtrunc_floor_ceiling.
  destruct (Qle_bool 0 q) eqn:Hq.
  - apply Qle_bool_iff in Hq.
    pose proof (Qfloor_resp_le _ _ Hq) as H1.
    pose proof (Qfloor_resp_le _ _ Hhi) as H2.
    change (Qfloor 0) with 0%Z in H1. rewrite Qfloor_Z in H2. lia.
  - apply Qleb_gt in Hq. apply Qlt_le_weak in Hq.
    pose proof (Qceiling_resp_le _ _ Hq) as H1.
    pose proof (Qceiling_resp_le _ _ Hlo) as H2.
    change (Qceiling 0) with 0%Z in H1. rewrite Qceiling_Z in H2. lia.
Qed.

(** ** Powers of two and the binary exponent *)

Lemma pow2_pos (k : Z) : 0 < 2 ^ k.
Proof. apply Qpower_0_lt. reflexivity. Qed.

Lemma pow2_add (a b : Z) : 2 ^ (a + b) == 2 ^ a * 2 ^ b.
Proof. apply Qpower_plus. discriminate. Qed.

Lemma pow2_inject (n : Z) : (0 <= n)%Z -> inject_Z (2 ^ n) == 2 ^ n.
Proof. intros Hn. exact (Zpower_Qpower 2 n Hn). Qed.

Lemma pow2_le (a b : Z) : (a <= b)%Z -> 2 ^ a <= 2 ^ b.
Proof. intros H. apply Qpower_le_compat_l; [exact H | discriminate]. Qed.

Lemma pow2_lt_inv (a b : Z) : 2 ^ a < 2 ^ b -> (a < b)%Z.
Proof. intros H. apply (Qpower_lt_compat_l_inv 2); [exact H | reflexivity]. Qed.

Lemma log2_bounds (a : Z) :
  (0 < a)%Z ->
  2 ^ Z.log2 a <= inject_Z a /\ inject_Z a < 2 ^ (Z.log2 a + 1).
Proof.
  intros Ha. destruct (Z.log2_spec a Ha) as [H1 H2].
  pose proof (Z.log2_nonneg a) as Hl.
  rewrite <- !pow2_inject by lia. rewrite <- Zle_Qle, <- Zlt_Qlt.
  split; [exact H1 | exact H2].
Qed.

Lemma floor_log2_frac_spec (a b : Z) :
  (0 < a)%Z -> (0 < b)%Z ->
  inject_Z b * 2 ^ floor_log2_frac a b <= inject_Z a /\
  inject_Z a < inject_Z b * 2 ^ (floor_log2_frac a b + 1).
Proof.
  intros Ha Hb. unfold floor_log2_frac.
  destruct (log2_bounds a Ha) as [Ha1 Ha2].
  destruct (log2_bounds b Hb) as [Hb1 Hb2].
  set (l := (Z.log2 a - Z.log2 b)%Z).
  assert (HA : 0 < inject_Z a) by (change 0 with (inject_Z 0); now rewrite <- Zlt_Qlt).
  assert (HB : 0 < inject_Z b) by (change 0 with (inject_Z 0); now rewrite <- Zlt_Qlt).
  assert (Hinv : 2 ^ (- l) * 2 ^ l == 1)
    by (rewrite <- pow2_add; now replace (- l + l)%Z with 0%Z by lia).
  assert (Htest :
    (if (0 <=? l)%Z then (Z.shiftl b l <=? a)%Z else (b <=? Z.shiftl a (- l))%Z)
    = true <-> inject_Z b * 2 ^ l <= inject_Z a).
  { destruct (Z.leb_spec 0 l) as [Hl | Hl].
    - rewrite Z.shiftl_mul_pow2 by lia. rewrite Z.leb_le, Zle_Qle.
      rewrite inject_Z_mult, pow2_inject by lia. reflexivity.
    - rewrite Z.shiftl_mul_pow2 by lia. rewrite Z.leb_le, Zle_Qle.
      rewrite inject_Z_mult, pow2_inject by lia.
      pose proof (pow2_pos l) as Hp. pose proof (pow2_pos (- l)) as Hq.
      revert Hinv Hp Hq. generalize (2 ^ l) (2 ^ (- l)) (inject_Z a) (inject_Z b).
      intros pl pn A B Hinv Hp Hq. split; intros H.
      + apply (Qmult_le_compat_r _ _ pl) in H; [ | lra].
        assert (E : A * pn * pl == A) by (rewrite <- Qmult_assoc, Hinv; ring).
        now rewrite E in H.
      + apply (Qmult_le_compat_r _ _ pn) in H; [ | lra].
        assert (E : B * pl * pn == B)
          by (rewrite <- Qmult_assoc, (Qmult_comm pl), Hinv; ring).
        now rewrite E in H. }
  assert (Hla : 2 ^ (Z.log2 a + 1) == 2 ^ Z.log2 b * 2 ^ (l + 1))
    by (rewrite <- pow2_add; now replace (Z.log2 b + (l + 1))%Z
          with (Z.log2 a + 1)%Z by lia).
  assert (Hlb : 2 ^ Z.log2 a == 2 ^ (Z.log2 b + 1) * 2 ^ (l - 1))
    by (rewrite <- pow2_add; now replace (Z.log2 b + 1 + (l - 1))%Z
          with (Z.log2 a) by lia).
  destruct (if (0 <=? l)%Z then _ else _) eqn:Ht.
  - split; [now apply Htest | ].
    rewrite Hla in Ha2. eapply Qlt_le_trans; [exact Ha2 | ].
    apply Qmult_le_compat_r; [exact Hb1 | apply Qlt_le_weak, pow2_pos].
  - replace (l - 1 + 1)%Z with l by lia. split.
    + rewrite Hlb in Ha1. eapply Qle_trans; [ | exact Ha1].
      apply Qmult_le_compat_r; [now apply Qlt_le_weak | apply Qlt_le_weak, pow2_pos].
    + apply Qnot_le_lt. intros H. apply Htest in H. congruence.
Qed.

(** ** The wire word *)

Lemma byte_values_In (b : Z) : (0 <= b < 256)%Z -> In b Codec.byte_values.
Proof.
  intros Hb. unfold Codec.byte_values.
  rewrite <- (Z2Nat.id b) by lia. apply in_map. apply in_seq. lia.
Qed.

Lemma all_bytes_roundtrip :
  forallb (fun b0 => forallb (Codec.bytes_roundtrip b0) Codec.byte_values)
          Codec.byte_values = true.
Proof. vm_compute. reflexivity. Qed.

Lemma bytes_roundtrip_all (b0 b1 : Z) :
  (0 <= b0 < 256)%Z -> (0 <= b1 < 256)%Z -> Codec.bytes_roundtrip b0 b1 = true.
Proof.
  intros H0 H1. pose proof all_bytes_roundtrip as H.
  rewrite forallb_forall in H.
  specialize (H b0 (byte_values_In b0 H0)).
  rewrite forallb_forall in H. exact (H b1 (byte_values_In b1 H1)).
Qed.

Lemma of_bytes_in_range (b0 b1 : Z) :
  (0 <= b0 < 256)%Z -> (0 <= b1 < 256)%Z ->
  RawSample.in_range (RawSample.of_bytes b0 b1).
Proof.
  intros H0 H1. pose proof (bytes_roundtrip_all b0 b1 H0 H1) as H.
  unfold Codec.bytes_roundtrip in H. cbv zeta in H.
  rewrite !andb_true_iff in H. unfold RawSample.in_range. lia.
Qed.

Lemma to_bytes_of_bytes (b0 b1 : Z) :
  (0 <= b0 < 256)%Z -> (0 <= b1 < 256)%Z ->
  RawSample.to_bytes (RawSample.of_bytes b0 b1) = (b0, b1).
Proof.
  intros H0 H1. pose proof (bytes_roundtrip_all b0 b1 H0 H1) as H.
  unfold Codec.bytes_roundtrip in H. cbv zeta in H.
  rewrite !andb_true_iff, !Z.eqb_eq in H.
  destruct (RawSample.to_bytes _) as [c0 c1]. simpl in H.
  f_equal; tauto.
Qed.


(** ** Rounding to [double] *)

Lemma rne_error (s : Q) : Qabs (inject_Z (Double.rne s) - s) <= 1 # 2.
Proof.
  unfold Double.rne. pose proof (Qfloor_le s) as H1.
  assert (H2 : s < inject_Z (Qfloor s) + 1)
    by (rewrite <- (inject_Z_plus _ 1); apply Qlt_floor).
  destruct (Qcompare (s - inject_Z (Qfloor s)) (1 # 2)) eqn:Hc.
  - apply Qeq_alt in Hc.
    destruct (Z.even (Qfloor s));
      [ | rewrite inject_Z_plus; change (inject_Z 1) with 1];
      revert H1 H2 Hc; generalize (inject_Z (Qfloor s)); intros f H1 H2 Hc;
      apply Qabs_Qle_condition; split; lra.
  - apply Qlt_alt in Hc.
    revert H1 H2 Hc. generalize (inject_Z (Qfloor s)). intros f H1 H2 Hc.
    apply Qabs_Qle_condition. split; lra.
  - apply Qgt_alt in Hc. rewrite inject_Z_plus. change (inject_Z 1) with 1.
    revert H1 H2 Hc. generalize (inject_Z (Qfloor s)). intros f H1 H2 Hc.
    apply Qabs_Qle_condition. split; lra.
Qed.

Lemma Qabs_frac (q : Q) :
  Qabs q * inject_Z (Zpos (Qden q)) == inject_Z (Z.abs (Qnum q)).
Proof.
  destruct q as [n d]. unfold Qabs, Qeq, Qmult, inject_Z. simpl.
  rewrite Pos.mul_1_r, Z.mul_1_r. reflexivity.
Qed.

(** The binary exponent brackets the magnitude. *)
Lemma exponent_spec (q : Q) :
  ~ q == 0 ->
  2 ^ Double.exponent q <= Qabs q /\ Qabs q < 2 ^ (Double.exponent q + 1).
Proof.
  intros Hq. unfold Double.exponent.
  assert (Hn : (0 < Z.abs (Qnum q))%Z).
  { destruct q as [n d]. unfold Qeq in Hq. simpl in *. lia. }
  destruct (floor_log2_frac_spec (Z.abs (Qnum q)) (Zpos (Qden q)) Hn eq_refl)
    as [H1 H2].
  rewrite <- (Qabs_frac q) in H1, H2.
  assert (HB : 0 < inject_Z (Zpos (Qden q))) by reflexivity.
  rewrite (Qmult_comm (Qabs q)) in H1, H2.
  apply Qmult_le_l in H1; [ | exact HB]. apply Qmult_lt_l in H2; [ | exact HB].
  now split.
Qed.

Lemma pow2_half (k : Z) : 2 ^ (k - 1) == (1 # 2) * 2 ^ k.
Proof.
  replace (k - 1)%Z with (-1 + k)%Z by lia. rewrite pow2_add. reflexivity.
Qed.

(** The error of a rounding is at most half a unit in the last place: for
    [|q| < 2^(E+1)], with [E] in the normal range, at most [2^(E-53)]. *)
Lemma round_error (q : Q) (E : Z) :
  Qabs q < 2 ^ (E + 1) -> (-1074 <= E - 52)%Z ->
  Qabs (Double.round q - q) <= 2 ^ (E - 53).
Proof.
  intros Hq HE. unfold Double.round.
  destruct (Qeq_bool q 0) eqn:Hz.
  - apply Qeq_bool_iff in Hz.
    setoid_replace (0 - q) with 0 by (rewrite Hz; ring).
    apply Qlt_le_weak. apply pow2_pos.
  - assert (Hnz : ~ q == 0) by (intros H; apply Qeq_bool_iff in H; congruence).
    destruct (exponent_spec q Hnz) as [He _].
    pose proof (pow2_lt_inv _ _ (Qle_lt_trans _ _ _ He Hq)) as Hlt.
    assert (Hu : (Double.quantum q <= E - 52)%Z) by (unfold Double.quantum; lia).
    set (u := Double.quantum q) in *.
    pose proof (pow2_pos u) as HP.
    pose proof (rne_error (q / 2 ^ u)) as Hr.
    assert (Heq : inject_Z (Double.rne (q / 2 ^ u)) * 2 ^ u - q
                  == (inject_Z (Double.rne (q / 2 ^ u)) - q / 2 ^ u) * 2 ^ u)
      by (field; intros H; rewrite H in HP; discriminate HP).
    rewrite Heq, Qabs_Qmult, (Qabs_pos (2 ^ u)) by now apply Qlt_le_weak.
    apply Qle_trans with ((1 # 2) * 2 ^ u).
    + apply Qmult_le_compat_r; [exact Hr | now apply Qlt_le_weak].
    + rewrite <- pow2_half. apply pow2_le. lia.
Qed.

(** [std::round] gives the integer within a half. *)
Lemma Qround_away_near (y : Q) (k : Z) :
  inject_Z k - (1 # 2) < y -> y < inject_Z k + (1 # 2) -> Qround_away y = k.
Proof.
  intros H1 H2. unfold Qround_away.
  destruct (Qle_bool 0 y).
  - assert (Hf : (k <= Qfloor (y + (1 # 2)) /\ Qfloor (y + (1 # 2)) < k + 1)%Z).
    { split.
      - rewrite <- (Qfloor_Z k). apply Qfloor_resp_le. lra.
      - rewrite Zlt_Qlt.
        apply Qle_lt_trans with (y + (1 # 2)); [apply Qfloor_le | ].
        rewrite inject_Z_plus. change (inject_Z 1) with 1. lra. }
    lia.
  - assert (Hc : (k - 1 < Qceiling (y - (1 # 2)) /\ Qceiling (y - (1 # 2)) <= k)%Z).
    { split.
      - rewrite Zlt_Qlt.
        apply Qlt_le_trans with (y - (1 # 2)); [ | apply Qle_ceiling].
        unfold Z.sub. rewrite inject_Z_plus.
        setoid_replace (inject_Z (-1)) with (- (1)) by reflexivity. lra.
      - rewrite <- (Qceiling_Z k). apply Qceiling_resp_le. lra. }
    lia.
Qed.

(** ** A logarithm within the assumed accuracy *)

Lemma zrange_In (lo : Z) (n : nat) (z : Z) :
  (lo <= z < lo + Z.of_nat n)%Z -> In z (Props.zrange lo n).
Proof.
  intros Hz. unfold Props.zrange.
  replace z with (lo + Z.of_nat (Z.to_nat (z - lo)))%Z by lia.
  apply (in_map (fun i => (lo + Z.of_nat i)%Z)). apply in_seq. lia.
Qed.

Lemma pow2_le_inv (a b : Z) : 2 ^ a <= 2 ^ b -> (a <= b)%Z.
Proof. intros H. apply (Qpower_le_compat_l_inv 2); [exact H | reflexivity]. Qed.

Lemma Qfourth_frac (x : Q) :
  x * x * x * x
  * inject_Z (Zpos (Qden x) * Zpos (Qden x) * (Zpos (Qden x) * Zpos (Qden x)))
  == inject_Z (Qnum x * Qnum x * (Qnum x * Qnum x)).
Proof.
  destruct x as [n d]. unfold Qeq, Qmult, inject_Z. simpl.
  rewrite ?Pos2Z.inj_mul. ring.
Qed.

Lemma square_mono (u v : Q) : 0 <= u -> u <= v -> u * u <= v * v.
Proof.
  intros Hu Huv. apply Qle_trans with (u * v).
  - setoid_replace (u * v) with (v * u) by ring.
    apply Qmult_le_compat_r; assumption.
  - apply Qmult_le_compat_r; [assumption | ]. eapply Qle_trans; eassumption.
Qed.

Lemma fourth_power_mono (a b : Q) :
  0 <= a -> a <= b -> a * a * a * a <= b * b * b * b.
Proof.
  intros Ha Hab.
  setoid_replace (a * a * a * a) with ((a * a) * (a * a)) by ring.
  setoid_replace (b * b * b * b) with ((b * b) * (b * b)) by ring.
  apply square_mono; [ | now apply square_mono].
  apply Qmult_le_0_compat; assumption.
Qed.

(** The eighths from -75 to 75 are doubles, and so are their quotients
    by 1. *)
Lemma round_eighths :
  forallb (fun j => Qeq_bool (Double.div (inject_Z j / 8) 1) (inject_Z j / 8))
          (Props.zrange (-600) 1201) = true.
Proof. vm_compute. reflexivity. Qed.

Lemma log_ref_accurate : Double.log2_accurate Double.log_ref.
Proof.
  intros x k Hlo Hhi. unfold Double.log2_quotient.
  change (Double.log_ref 2) with 1. unfold Double.log_ref.
  destruct (Qeq_bool x 2) eqn:E2.
  - apply Qeq_bool_iff in E2.
    assert (H4 : x * x * x * x == 2 ^ 4) by (rewrite E2; reflexivity).
    assert (Hone : Double.div 1 1 == 1) by (vm_compute; reflexivity).
    rewrite H4, Hone.
    split; intros H; apply pow2_lt_inv in H; rewrite Zlt_Qlt in H;
      revert H; generalize (inject_Z k); intros K H;
      change (inject_Z 4) with 4 in H; lra.
  - set (n := (Qnum x * Qnum x * (Qnum x * Qnum x))%Z).
    set (d := (Zpos (Qden x) * Zpos (Qden x) * (Zpos (Qden x) * Zpos (Qden x)))%Z).
    assert (Hx0 : 0 < x)
      by (eapply Qlt_le_trans; [apply (pow2_pos (-64)) | exact Hlo]).
    assert (Hn : (0 < Qnum x)%Z).
    { destruct x as [nx dx]. unfold Qlt in Hx0. simpl in *. lia. }
    assert (Hn4 : (0 < n)%Z) by (unfold n; nia).
    assert (Hd4 : (0 < d)%Z) by (unfold d; lia).
    destruct (floor_log2_frac_spec n d Hn4 Hd4) as [H1 H2].
    pose proof (Qfourth_frac x) as Hf. fold n d in Hf.
    set (L := floor_log2_frac n d) in *.
    assert (HD : 0 < inject_Z d)
      by (change 0 with (inject_Z 0); now rewrite <- Zlt_Qlt).
    rewrite <- Hf in H1, H2.
    rewrite (Qmult_comm (x * x * x * x)) in H1, H2.
    apply Qmult_le_l in H1; [ | exact HD]. apply Qmult_lt_l in H2; [ | exact HD].
    assert (Hx4lo : 2 ^ (-256) <= x * x * x * x).
    { eapply Qle_trans; [ | apply (fourth_power_mono (2 ^ (-64)) x);
                            [discriminate | exact Hlo] ].
      vm_compute. discriminate. }
    assert (Hx4hi : x * x * x * x <= 2 ^ 256).
    { eapply Qle_trans; [apply (fourth_power_mono x (2 ^ 64));
                           [now apply Qlt_le_weak | exact Hhi] | ].
      vm_compute. discriminate. }
    pose proof (pow2_le_inv _ _ (Qle_trans _ _ _ H1 Hx4hi)) as HL1.
    pose proof (pow2_lt_inv _ _ (Qle_lt_trans _ _ _ Hx4lo H2)) as HL2.
    assert (Hy : Double.div (inject_Z (2 * L + 1) / 8) 1
                 == inject_Z (2 * L + 1) / 8).
    { pose proof round_eighths as Hr. rewrite forallb_forall in Hr.
      apply Qeq_bool_iff. apply Hr. apply zrange_In. lia. }
    rewrite Hy. rewrite inject_Z_plus, inject_Z_mult.
    change (inject_Z 2) with 2. change (inject_Z 1) with 1.
    split; intros H.
    + pose proof (pow2_lt_inv _ _ (Qle_lt_trans _ _ _ H1 H)) as Hk.
      rewrite Zlt_Qlt in Hk. revert Hk.
      generalize (inject_Z L) (inject_Z k). intros A K Hk.
      setoid_replace (4 * ((2 * A + 1) / 8)) with (A + (1 # 2)) by field. lra.
    + pose proof (pow2_lt_inv _ _ (Qlt_trans _ _ _ H H2)) as Hk.
      assert (Hk' : (k <= L)%Z) by lia. rewrite Zle_Qle in Hk'. revert Hk'.
      generalize (inject_Z L) (inject_Z k). intros A K Hk'.
      setoid_replace (4 * ((2 * A + 1) / 8)) with (A + (1 # 2)) by field. lra.
Qed.

(** ** [raw()] on a decoded sample *)

Lemma c0_0165_value :
  Double.c0_0165 == 1188950301625811 # 72057594037927936.
Proof. vm_compute. reflexivity. Qed.

(** The horizons are exact multiples of the literal, and the value fields
    come back from the decoded values. *)
Lemma horizon_s_all :
  forallb (fun h => Qeq_bool (Double.mul Double.c0_0165 (inject_Z (Z.shiftl 1 h)))
                             (Double.c0_0165 * inject_Z (2 ^ h)))
          (Props.zrange 0 16) = true.
Proof. vm_compute. reflexivity. Qed.

Lemma raw_value_all :
  forallb (fun v => Z.eqb (Qtrunc (Double.div
                             (Double.sub (50e3 + inject_Z (390 * v)) 50e3) 390)) v)
          (Props.zrange (-128) 256) = true.
Proof. vm_compute. reflexivity. Qed.

Lemma horizon_s_exact (r : RawSample.t) :
  (0 <= RawSample.horizon r < 16)%Z ->
  RawSample.horizon_s r
  == Double.c0_0165 * inject_Z (2 ^ RawSample.horizon r).
Proof.
  intros Hh. pose proof horizon_s_all as H. rewrite forallb_forall in H.
  apply Qeq_bool_iff. apply (H (RawSample.horizon r)). apply zrange_In. lia.
Qed.

Lemma raw_value_of_raw (now : Q) (r : RawSample.t) :
  (-128 <= RawSample.value r < 128)%Z ->
  Sample.raw_value (Sample.of_raw now r) = Some (RawSample.value r).
Proof.
  intros Hv. unfold Sample.raw_value, Sample.of_raw, RawSample.value_lx.
  cbn [Sample.value_].
  pose proof raw_value_all as H. rewrite forallb_forall in H.
  specialize (H (RawSample.value r) (zrange_In (-128) 256 _ Hv)).
  apply Z.eqb_eq in H. rewrite H.
  destruct (Z.leb_spec (-32768) (RawSample.value r)); [ | lia].
  destruct (Z.leb_spec (RawSample.value r) 32767); [ | lia].
  cbn [andb]. now rewrite sext8_small.
Qed.

Lemma pow2_fourth (h : Z) :
  (0 <= h)%Z ->
  inject_Z (2 ^ h) * inject_Z (2 ^ h) * inject_Z (2 ^ h) * inject_Z (2 ^ h)
  == 2 ^ (4 * h).
Proof.
  intros Hh. rewrite (pow2_inject h Hh).
  replace (4 * h)%Z with (h + h + h + h)%Z by lia.
  now rewrite !pow2_add.
Qed.

(** A computed number within an eighth of a power of two, in proportion,
    has that power's exponent as its rounded logarithm. *)
Lemma round_log2_near_power (log : Q -> Q) (x : Q) (h : Z) :
  Double.log2_accurate log -> (0 <= h <= 15)%Z ->
  (7 # 8) * inject_Z (2 ^ h) <= x -> x <= (9 # 8) * inject_Z (2 ^ h) ->
  Qround_away (Double.log2_quotient log x) = h.
Proof.
  intros Hlog Hh Hlo Hhi.
  assert (HP1 : 1 <= inject_Z (2 ^ h)).
  { change 1 with (inject_Z (2 ^ 0)). rewrite <- Zle_Qle.
    apply Z.pow_le_mono_r; lia. }
  assert (HP2 : inject_Z (2 ^ h) <= 32768).
  { change 32768 with (inject_Z (2 ^ 15)). rewrite <- Zle_Qle.
    apply Z.pow_le_mono_r; lia. }
  pose proof (pow2_fourth h (proj1 Hh)) as HP4.
  revert HP1 HP2 HP4 Hlo Hhi. generalize (inject_Z (2 ^ h)).
  intros P HP1 HP2 HP4 Hlo Hhi.
  assert (H78 : 0 <= (7 # 8) * P) by lra.
  assert (Hx0 : 0 <= x) by lra.
  pose proof (fourth_power_mono _ _ H78 Hlo) as L4.
  pose proof (fourth_power_mono _ _ Hx0 Hhi) as U4.
  assert (HPP : 1 <= P * P * P * P).
  { apply Qle_trans with (1 * 1 * 1 * 1); [discriminate | ].
    apply fourth_power_mono; [discriminate | exact HP1]. }
  setoid_replace ((7 # 8) * P * ((7 # 8) * P) * ((7 # 8) * P) * ((7 # 8) * P))
    with ((2401 # 4096) * (P * P * P * P)) in L4 by ring.
  setoid_replace ((9 # 8) * P * ((9 # 8) * P) * ((9 # 8) * P) * ((9 # 8) * P))
    with ((6561 # 4096) * (P * P * P * P)) in U4 by ring.
  rewrite HP4 in L4, U4, HPP.
  assert (Hx1 : 2 ^ (-64) <= x).
  { apply Qle_trans with (7 # 8); [vm_compute; discriminate | lra]. }
  assert (Hx2 : x <= 2 ^ 64).
  { apply Qle_trans with 36864; [lra | vm_compute; discriminate]. }
  destruct (Hlog x (4 * h + 1)%Z Hx1 Hx2) as [Hup _].
  destruct (Hlog x (4 * h - 1)%Z Hx1 Hx2) as [_ Hdn].
  assert (E1 : 2 ^ (4 * h + 1) == 2 * 2 ^ (4 * h))
    by (rewrite Z.add_comm, pow2_add; reflexivity).
  assert (E2 : 2 ^ (4 * h - 1) == (1 # 2) * 2 ^ (4 * h)) by apply pow2_half.
  rewrite E1 in Hup. rewrite E2 in Hdn.
  assert (Y1 : 4 * Double.log2_quotient log x < inject_Z (4 * h + 1) + 1).
  { apply Hup. revert U4 HPP. generalize (x * x * x * x) (2 ^ (4 * h)).
    intros a b U4 HPP. lra. }
  assert (Y2 : inject_Z (4 * h - 1) - 1 < 4 * Double.log2_quotient log x).
  { apply Hdn. revert L4 HPP. generalize (x * x * x * x) (2 ^ (4 * h)).
    intros a b L4 HPP. lra. }
  unfold Z.sub in Y2. rewrite inject_Z_plus, inject_Z_mult in Y1, Y2.
  change (inject_Z 4) with 4 in *. change (inject_Z 1) with 1 in *.
  setoid_replace (inject_Z (-1)) with (- (1)) in Y2 by reflexivity.
  apply Qround_away_near; revert Y1 Y2;
    generalize (Double.log2_quotient log x) (inject_Z h); intros y H Y1 Y2; lra.
Qed.

(** The duration a sample is built with comes back from its start and end
    up to the roundings, for a timestamp below [2^40] in magnitude. *)
Lemma duration_near_power (now : Q) (r : RawSample.t) :
  Qabs now <= 2 ^ 40 -> (0 <= RawSample.horizon r < 16)%Z ->
  let x := Double.div
             (Double.sub (Double.add now (RawSample.horizon_s r)) now)
             Double.c0_0165 in
  (7 # 8) * inject_Z (2 ^ RawSample.horizon r) <= x /\
  x <= (9 # 8) * inject_Z (2 ^ RawSample.horizon r).
Proof.
  intros Hnow Hh x. subst x.
  pose proof (horizon_s_exact r Hh) as Hd.
  pose proof c0_0165_value as Hc.
  assert (HP1 : 1 <= inject_Z (2 ^ RawSample.horizon r)).
  { change 1 with (inject_Z (2 ^ 0)). rewrite <- Zle_Qle.
    apply Z.pow_le_mono_r; lia. }
  assert (HP2 : inject_Z (2 ^ RawSample.horizon r) <= 32768).
  { change 32768 with (inject_Z (2 ^ 15)). rewrite <- Zle_Qle.
    apply Z.pow_le_mono_r; lia. }
  revert Hd HP1 HP2.
  generalize (RawSample.horizon_s r) (inject_Z (2 ^ RawSample.horizon r)).
  intros d P Hd HP1 HP2. rewrite Hc in Hd.
  apply Qabs_Qle_condition in Hnow.
  change (2 ^ 40) with (1099511627776 # 1) in Hnow.
  unfold Double.div, Double.sub, Double.add.
  (* the end *)
  assert (E1 : Qabs (Double.round (now + d) - (now + d)) <= 2 ^ (40 - 53)).
  { apply round_error; [ | lia]. apply Qabs_Qlt_condition.
    change (2 ^ (40 + 1)) with (2199023255552 # 1). split; lra. }
  apply Qabs_Qle_condition in E1. change (2 ^ (40 - 53)) with (1 # 8192) in E1.
  revert E1. generalize (Double.round (now + d)). intros e E1.
  (* the difference *)
  assert (E2 : Qabs (Double.round (e - now) - (e - now)) <= 2 ^ (9 - 53)).
  { apply round_error; [ | lia]. apply Qabs_Qlt_condition.
    change (2 ^ (9 + 1)) with (1024 # 1). split; lra. }
  apply Qabs_Qle_condition in E2.
  change (2 ^ (9 - 53)) with (1 # 17592186044416) in E2.
  revert E2. generalize (Double.round (e - now)). intros u E2.
  (* the quotient *)
  assert (Hw : u / Double.c0_0165 * (1188950301625811 # 72057594037927936) == u)
    by (rewrite Hc; field).
  revert Hw. generalize (u / Double.c0_0165). intros w Hw.
  assert (E3 : Qabs (Double.round w - w) <= 2 ^ (15 - 53)).
  { apply round_error; [ | lia]. apply Qabs_Qlt_condition.
    change (2 ^ (15 + 1)) with (65536 # 1). split; lra. }
  apply Qabs_Qle_condition in E3.
  change (2 ^ (15 - 53)) with (1 # 274877906944) in E3.
  revert E3. generalize (Double.round w). intros x E3.
  split; lra.
Qed.

Lemma raw_horizon_of_raw (log : Q -> Q) (now : Q) (r : RawSample.t) :
  Double.log2_accurate log -> Qabs now <= 2 ^ 40 ->
  (0 <= RawSample.horizon r < 16)%Z ->
  Sample.raw_horizon log (Sample.of_raw now r) = Some (RawSample.horizon r).
Proof.
  intros Hlog Hnow Hh.
  destruct (duration_near_power now r Hnow Hh) as [Hlo Hhi].
  unfold Sample.raw_horizon, Sample.of_raw. cbn [Sample.end_ Sample.start_].
  set (x := Double.div _ Double.c0_0165) in *.
  assert (HP1 : 1 <= inject_Z (2 ^ RawSample.horizon r)).
  { change 1 with (inject_Z (2 ^ 0)). rewrite <- Zle_Qle.
    apply Z.pow_le_mono_r; lia. }
  assert (Hx : Qltb 0 x = true) by (apply Qltb_lt; lra).
  rewrite Hx.
  rewrite (round_log2_near_power log x (RawSample.horizon r) Hlog ltac:(lia) Hlo Hhi).
  destruct (Z.leb_spec 0 (RawSample.horizon r)); [ | lia].
  destruct (Z.leb_spec (RawSample.horizon r) 65535); [ | lia].
  cbn [andb]. now rewrite Z.mod_small by lia.
Qed.

(** [raw()] gives back the wire fields a sample was built from. *)
Lemma raw_of_raw (log : Q -> Q) (now : Q) (r : RawSample.t) :
  Double.log2_accurate log -> Qabs now <= 2 ^ 40 ->
  RawSample.in_range r -> Sample.raw log (Sample.of_raw now r) = Some r.
Proof.
  intros Hlog Hnow [Hc [Hv Hh] ]. unfold Sample.raw.
  rewrite (raw_value_of_raw now r Hv), (raw_horizon_of_raw log now r Hlog Hnow Hh).
  unfold Sample.of_raw. cbn [Sample.confidence_ Sample.clear_ Sample.sign_].
  rewrite Z.mod_small by lia. destruct r; reflexivity.
Qed.

(** C9, as the code has it.  For a sample [e] decoded from two bytes at a
    timestamp of magnitude at most [2^40], and a library logarithm within the
    assumed accuracy, [encode] succeeds and decoding its bytes at [e.start]
    reproduces the direction, the confidence, the clear flag, the value and
    the end: the re-encoded bytes are the original ones. *)
Theorem decode_encode_roundtrip (log : Q -> Q) (t : Q) (b0 b1 : Z) :
  Double.log2_accurate log -> Qabs t <= 2 ^ 40 ->
  (0 <= b0 < 256)%Z -> (0 <= b1 < 256)%Z ->
  let e := Codec.decode t (b0, b1) in
  exists bytes,
    Codec.encode log e = Some bytes /\
    let e' := Codec.decode (Sample.start e) bytes in
    Sample.sign e' = Sample.sign e /\
    Sample.confidence e' = Sample.confidence e /\
    Sample.should_clear e' = Sample.should_clear e /\
    Qabs (Sample.value e' - Sample.value e) < 390 /\
    Sample.end' e' == Sample.end' e /\
    bytes = (b0, b1) /\ e' = e.
Proof.
  intros Hlog Ht H0 H1 e. exists (b0, b1).
  assert (Henc : Codec.encode log e = Some (b0, b1)).
  { unfold Codec.encode, e, Codec.decode, Sample.from_raw. cbn [fst snd].
    rewrite (raw_of_raw log t _ Hlog Ht (of_bytes_in_range b0 b1 H0 H1)).
    cbn [option_map]. now rewrite (to_bytes_of_bytes b0 b1 H0 H1). }
  split; [exact Henc | ]. intros e'.
  assert (He : e' = e) by reflexivity.
  rewrite He. repeat split; try reflexivity.
  setoid_replace (Sample.value e - Sample.value e) with 0 by ring.
  reflexivity.
Qed.

Lemma decode_encode_roundtrip_witness :
  let e := Codec.decode 10e3 (160, 85)%Z in
  exists bytes,
    Codec.encode Double.log_ref e = Some bytes /\
    let e' := Codec.decode (Sample.start e) bytes in
    Sample.sign e' = Sample.sign e /\
    Sample.confidence e' = Sample.confidence e /\
    Sample.should_clear e' = Sample.should_clear e /\
    Qabs (Sample.value e' - Sample.value e) < 390 /\
    Sample.end' e' == Sample.end' e /\
    bytes = (160, 85)%Z /\ e' = e.
Proof.
  apply (decode_encode_roundtrip Double.log_ref 10e3 160 85);
    [apply log_ref_accurate | vm_compute; discriminate | lia | lia].
Defined.

(** C9, as stated, fails: the sample decoded from the bytes 0, 0 at the
    timestamp [1e15] ends when it starts, the sum of the timestamp and
    the horizon being rounded to the timestamp; [raw()] then takes the
    logarithm of zero and [encode] has no defined result, whatever the
    library logarithm. *)
Lemma encode_undefined_at_large_timestamp :
  let e := Codec.decode 1e15 (0, 0)%Z in
  Sample.end' e == Sample.start e /\
  forall log : Q -> Q, Codec.encode log e = None.
Proof.
  cbv zeta. split; [vm_compute; reflexivity | ].
  intros log. unfold Codec.encode, Sample.raw.
  assert (Hh : Sample.raw_horizon log (Codec.decode 1e15 (0, 0)%Z) = None).
  { unfold Sample.raw_horizon.
    assert (Hx : Qltb 0 (Double.div
                    (Double.sub (Sample.end_ (Codec.decode 1e15 (0, 0)%Z))
                                (Sample.start_ (Codec.decode 1e15 (0, 0)%Z)))
                    Double.c0_0165) = false) by (vm_compute; reflexivity).
    now rewrite Hx. }
  rewrite Hh. destruct (Sample.raw_value _); reflexivity.
Qed.

(** ** The fields [raw()] computes *)








(** The bytes of three samples of the repository's tests, as the
    [meter.consume] lines of its public tests list them. *)
Example ptest_bytes :
  Codec.encode Double.log_ref (Sample.mk 1.1 1.5 false 65e3 false 0)
  = Some (48, 81)%Z /\
  Codec.encode Double.log_ref (Sample.mk 2.3 2.5 false 60e3 true 0)
  = Some (204, 64)%Z /\
  Codec.encode Double.log_ref (Sample.mk 1.1 1.5 true 40e3 false 0)
  = Some (56, 95)%Z.
Proof. repeat split; vm_compute; reflexivity. Qed.

(** ** The folds of [lower] and [upper] *)

Lemma fold_lower_max (keep : Sample.t -> bool) (m : Photometer.MapT)
      (init : Sample.t) :
  let r := fold_left (Props.step_lower keep) m init in
  Sample.value init <= Sample.value r /\
  (forall kv, In kv m -> keep (snd kv) = true ->
     Sample.value (snd kv) <= Sample.value r) /\
  (r = init \/ exists kv, In kv m /\ keep (snd kv) = true /\ r = snd kv).
Proof.
  revert init. induction m as [ | kv m IH]; intros init; cbn [fold_left].
  - split; [apply Qle_refl | ]. split; [intros kv [] | now left].
  - destruct (IH (Props.step_lower keep init kv)) as [H1 [H2 H3] ].
    assert (Hstep : Sample.value init <= Sample.value (Props.step_lower keep init kv) /\
                    (keep (snd kv) = true ->
                     Sample.value (snd kv) <= Sample.value (Props.step_lower keep init kv)) /\
                    (Props.step_lower keep init kv = init \/
                     (keep (snd kv) = true /\ Props.step_lower keep init kv = snd kv))).
    { unfold Props.step_lower, Sample.resolve_lower, Sample.value.
      destruct (keep (snd kv)).
      - destruct (Qltb (Sample.value_ (snd kv)) (Sample.value_ init)) eqn:E.
        + apply Qltb_lt in E. split; [apply Qle_refl | ].
          split; [intros _; now apply Qlt_le_weak | now left].
        + apply Qltb_ge in E. split; [exact E | ].
          split; [intros _; apply Qle_refl | right; now split].
      - split; [apply Qle_refl | ]. split; [discriminate | now left]. }
    destruct Hstep as [S1 [S2 S3] ].
    split; [eapply Qle_trans; eassumption | ]. split.
    + intros kv' [<- | Hin] Hk.
      * eapply Qle_trans; [now apply S2 | exact H1].
      * now apply H2.
    + destruct H3 as [H3 | [kv' [Hin [Hk H3] ] ] ].
      * destruct S3 as [S3 | [Hk S3] ].
        -- left. now rewrite H3.
        -- right. exists kv. split; [now left | ]. split; [exact Hk | ].
           now rewrite H3.
      * right. exists kv'. split; [now right | now split].
Qed.

Lemma fold_upper_min (keep : Sample.t -> bool) (m : Photometer.MapT)
      (init : Sample.t) :
  let r := fold_left (Props.step_upper keep) m init in
  Sample.value r <= Sample.value init /\
  (forall kv, In kv m -> keep (snd kv) = true ->
     Sample.value r <= Sample.value (snd kv)) /\
  (r = init \/ exists kv, In kv m /\ keep (snd kv) = true /\ r = snd kv).
Proof.
  revert init. induction m as [ | kv m IH]; intros init; cbn [fold_left].
  - split; [apply Qle_refl | ]. split; [intros kv [] | now left].
  - destruct (IH (Props.step_upper keep init kv)) as [H1 [H2 H3] ].
    assert (Hstep : Sample.value (Props.step_upper keep init kv) <= Sample.value init /\
                    (keep (snd kv) = true ->
                     Sample.value (Props.step_upper keep init kv) <= Sample.value (snd kv)) /\
                    (Props.step_upper keep init kv = init \/
                     (keep (snd kv) = true /\ Props.step_upper keep init kv = snd kv))).
    { unfold Props.step_upper, Sample.resolve_upper, Sample.value.
      destruct (keep (snd kv)).
      - destruct (Qltb (Sample.value_ init) (Sample.value_ (snd kv))) eqn:E.
        + apply Qltb_lt in E. split; [apply Qle_refl | ].
          split; [intros _; now apply Qlt_le_weak | now left].
        + apply Qltb_ge in E. split; [exact E | ].
          split; [intros _; apply Qle_refl | right; now split].
      - split; [apply Qle_refl | ]. split; [discriminate | now left]. }
    destruct Hstep as [S1 [S2 S3] ].
    split; [eapply Qle_trans; eassumption | ]. split.
    + intros kv' [<- | Hin] Hk.
      * eapply Qle_trans; [exact H1 | now apply S2].
      * now apply H2.
    + destruct H3 as [H3 | [kv' [Hin [Hk H3] ] ] ].
      * destruct S3 as [S3 | [Hk S3] ].
        -- left. now rewrite H3.
        -- right. exists kv. split; [now left | ]. split; [exact Hk | ].
           now rewrite H3.
      * right. exists kv'. split; [now right | now split].
Qed.

Lemma lower_facts (p : Photometer.t) :
  Sample.value universal_lower <= Photometer.lower p /\
  (forall kv, In kv (Photometer.lower_by_end p) ->
     Photometer.keep_lower p (snd kv) = true ->
     Sample.value (snd kv) <= Photometer.lower p) /\
  (Photometer.effective_lower p = universal_lower \/
   exists kv, In kv (Photometer.lower_by_end p) /\
     Photometer.keep_lower p (snd kv) = true /\
     Photometer.effective_lower p = snd kv).
Proof.
  exact (fold_lower_max (Photometer.keep_lower p) (Photometer.lower_by_end p)
           universal_lower).
Qed.

Lemma upper_facts (p : Photometer.t) :
  Photometer.upper p <= Sample.value universal_upper /\
  (forall kv, In kv (Photometer.upper_by_end p) ->
     Photometer.keep_upper p (snd kv) = true ->
     Photometer.upper p <= Sample.value (snd kv)) /\
  (Photometer.effective_upper p = universal_upper \/
   exists kv, In kv (Photometer.upper_by_end p) /\
     Photometer.keep_upper p (snd kv) = true /\
     Photometer.effective_upper p = snd kv).
Proof.
  exact (fold_upper_min (Photometer.keep_upper p) (Photometer.upper_by_end p)
           universal_upper).
Qed.

(** X4.  [lower()] is the greatest value among 0 and the lower samples
    that no upper sample overrides: it is at least 0, at least the value of
    every kept lower sample, and it is 0 or the value of a kept lower
    sample. *)
Theorem lower_is_greatest_kept (p : Photometer.t) :
  0 <= Photometer.lower p /\
  (forall kv, In kv (Photometer.lower_by_end p) ->
     Photometer.keep_lower p (snd kv) = true ->
     Sample.value (snd kv) <= Photometer.lower p) /\
  (Photometer.lower p = 0 \/
   exists kv, In kv (Photometer.lower_by_end p) /\
     Photometer.keep_lower p (snd kv) = true /\
     Photometer.lower p = Sample.value (snd kv)).
Proof.
  destruct (lower_facts p) as [H1 [H2 H3] ].
  split; [exact H1 | ]. split; [exact H2 | ].
  unfold Photometer.lower.
  destruct H3 as [-> | [kv [Hin [Hk ->] ] ] ]; [now left | ].
  right. exists kv. now repeat split.
Qed.

(** X5.  [upper()] is the least value among 100000 and the upper samples
    that no lower sample overrides. *)
Theorem upper_is_least_kept (p : Photometer.t) :
  Photometer.upper p <= 100000 /\
  (forall kv, In kv (Photometer.upper_by_end p) ->
     Photometer.keep_upper p (snd kv) = true ->
     Photometer.upper p <= Sample.value (snd kv)) /\
  (Photometer.upper p == 100000 \/
   exists kv, In kv (Photometer.upper_by_end p) /\
     Photometer.keep_upper p (snd kv) = true /\
     Photometer.upper p = Sample.value (snd kv)).
Proof.
  destruct (upper_facts p) as [H1 [H2 H3] ].
  split; [exact H1 | ]. split; [exact H2 | ].
  unfold Photometer.upper.
  destruct H3 as [-> | [kv [Hin [Hk ->] ] ] ]; [left; reflexivity | ].
  right. exists kv. now repeat split.
Qed.

(** ** What [consume] keeps and adds *)

Lemma is_superset_of_refl (e : Sample.t) : Sample.is_superset_of e e = true.
Proof.
  apply is_superset_of_iff. split; [apply Qle_refl | ].
  destruct (Sample.sign e); [right | left]; repeat split; apply Qle_refl.
Qed.

Lemma insert_unless_subset_incl (e : Sample.t) (m : Photometer.MapT) kv :
  In kv m -> In kv (Photometer.insert_unless_subset e m).
Proof.
  intros Hin. unfold Photometer.insert_unless_subset.
  destruct (find _ m); [exact Hin | apply emplace_In; now right].
Qed.

Lemma insert_unless_subset_covers (e : Sample.t) (m : Photometer.MapT) :
  exists o, In o (Photometer.insert_unless_subset e m) /\
            Sample.is_superset_of (snd o) e = true.
Proof.
  unfold Photometer.insert_unless_subset.
  destruct (find _ m) as [o | ] eqn:Hf.
  - exists o. apply find_some in Hf. exact Hf.
  - exists (Sample.end' e, e). split; [apply emplace_In; now left | ].
    apply is_superset_of_refl.
Qed.

Lemma insert_unless_subset_length (e : Sample.t) (m : Photometer.MapT) :
  (length m <= length (Photometer.insert_unless_subset e m) <= S (length m))%nat.
Proof.
  unfold Photometer.insert_unless_subset.
  destruct (find _ m); [lia | rewrite emplace_length; lia].
Qed.

Lemma upper_bound_length (now : Q) (m : Photometer.MapT) :
  (length (Photometer.upper_bound now m) <= length m)%nat.
Proof.
  destruct (upper_bound_suffix now m) as [pre H].
  rewrite H at 2. rewrite length_app. lia.
Qed.

Lemma target_consume (e : Sample.t) (p : Photometer.t) :
  Inv.target e (Photometer.consume e p) =
  Photometer.insert_unless_subset e
    (Inv.target e (Photometer.clear_or_erase e p)).
Proof.
  unfold Inv.target, Photometer.consume. destruct (Sample.sign e); reflexivity.
Qed.

(** X8.  After [consume(e)], clearing or not, the map of [e]'s sign holds
    an element that ends no earlier than [e] and bounds at least as tightly:
    [e] itself or the stored superset that made it redundant. *)
Theorem consume_covers_sample (e : Sample.t) (p : Photometer.t) :
  exists o, In o (Inv.target e (Photometer.consume e p)) /\
            Sample.end' e <= Sample.end' (snd o) /\
            Sample.sign (snd o) = Sample.sign e /\
            (if Sample.sign e
             then Sample.value (snd o) <= Sample.value e
             else Sample.value e <= Sample.value (snd o)).
Proof.
  rewrite target_consume.
  destruct (insert_unless_subset_covers e
              (Inv.target e (Photometer.clear_or_erase e p))) as [o [Hin Hs] ].
  exists o. split; [exact Hin | ].
  apply is_superset_of_iff in Hs. destruct Hs as [Hend Hv].
  split; [exact Hend | ].
  destruct Hv as [ [Ho [He Hv] ] | [Ho [He Hv] ] ]; rewrite He, Ho; now split.
Qed.

(** X9.  [consume] leaves at least one stored sample and adds at most one
    to [size()]. *)
Theorem consume_size_bounds (e : Sample.t) (p : Photometer.t) :
  (1 <= Photometer.size (Photometer.consume e p) <= S (Photometer.size p))%nat.
Proof.
  assert (Hpre : (Photometer.size (Photometer.clear_or_erase e p)
                  <= Photometer.size p)%nat).
  { unfold Photometer.clear_or_erase, Photometer.size.
    destruct (Sample.should_clear e); simpl; [lia | ].
    pose proof (upper_bound_length (Sample.start e) (Photometer.lower_by_end p)).
    pose proof (upper_bound_length (Sample.start e) (Photometer.upper_by_end p)).
    lia. }
  destruct (insert_unless_subset_covers e
              (Inv.target e (Photometer.clear_or_erase e p))) as [o [Hin _] ].
  pose proof (insert_unless_subset_length e
                (Inv.target e (Photometer.clear_or_erase e p))) as Hlen.
  assert (Hpos : (1 <= length (Photometer.insert_unless_subset e
                     (Inv.target e (Photometer.clear_or_erase e p))))%nat)
    by (destruct (Photometer.insert_unless_subset e _); [destruct Hin | simpl; lia]).
  revert Hpre Hlen Hpos.
  unfold Photometer.size, Photometer.consume, Inv.target.
  destruct (Sample.sign e); simpl; lia.
Qed.

(** ** Narrowing *)

Lemma keep_lower_same_upper (p q : Photometer.t) (l : Sample.t) :
  Photometer.upper_by_end p = Photometer.upper_by_end q ->
  Photometer.keep_lower p l = Photometer.keep_lower q l.
Proof. intros H. unfold Photometer.keep_lower. now rewrite H. Qed.

Lemma keep_upper_same_lower (p q : Photometer.t) (u : Sample.t) :
  Photometer.lower_by_end p = Photometer.lower_by_end q ->
  Photometer.keep_upper p u = Photometer.keep_upper q u.
Proof. intros H. unfold Photometer.keep_upper. now rewrite H. Qed.

(** X6.  Consuming a non-clearing lower sample does not lower [lower()]
    below what it is on the engine once old samples are erased. *)
Theorem consume_lower_narrows (e : Sample.t) (p : Photometer.t) :
  Sample.sign e = false -> Sample.should_clear e = false ->
  Photometer.lower (Photometer.erase_old (Sample.start e) p)
  <= Photometer.lower (Photometer.consume e p).
Proof.
  intros Hs Hc.
  set (p' := Photometer.erase_old (Sample.start e) p).
  set (q := Photometer.consume e p).
  assert (Hq : q = Photometer.mk
                 (Photometer.insert_unless_subset e (Photometer.lower_by_end p'))
                 (Photometer.upper_by_end p')).
  { unfold q, Photometer.consume, Photometer.clear_or_erase.
    now rewrite Hc, Hs. }
  destruct (lower_facts q) as [Q1 [Q2 _] ].
  destruct (lower_facts p') as [_ [_ P3] ].
  unfold Photometer.lower at 1.
  destruct P3 as [-> | [kv [Hin [Hk ->] ] ] ]; [exact Q1 | ].
  apply Q2.
  - rewrite Hq. simpl. now apply insert_unless_subset_incl.
  - rewrite <- Hk. apply keep_lower_same_upper. now rewrite Hq.
Qed.

Lemma consume_lower_narrows_witness :
  let e := Sample.mk 1.2 1.8 false 70e3 false 0 in
  let p := Photometer.consume_all [Sample.mk 1.1 1.5 false 65e3 false 0] in
  Photometer.lower (Photometer.erase_old (Sample.start e) p)
  <= Photometer.lower (Photometer.consume e p).
Proof.
  intros e p. apply (consume_lower_narrows e p); reflexivity.
Defined.

(** X7.  Consuming a non-clearing upper sample does not raise [upper()]
    above what it is on the engine once old samples are erased. *)
Theorem consume_upper_narrows (e : Sample.t) (p : Photometer.t) :
  Sample.sign e = true -> Sample.should_clear e = false ->
  Photometer.upper (Photometer.consume e p)
  <= Photometer.upper (Photometer.erase_old (Sample.start e) p).
Proof.
  intros Hs Hc.
  set (p' := Photometer.erase_old (Sample.start e) p).
  set (q := Photometer.consume e p).
  assert (Hq : q = Photometer.mk
                 (Photometer.lower_by_end p')
                 (Photometer.insert_unless_subset e (Photometer.upper_by_end p'))).
  { unfold q, Photometer.consume, Photometer.clear_or_erase.
    now rewrite Hc, Hs. }
  destruct (upper_facts q) as [Q1 [Q2 _] ].
  destruct (upper_facts p') as [_ [_ P3] ].
  unfold Photometer.upper at 2.
  destruct P3 as [-> | [kv [Hin [Hk ->] ] ] ]; [exact Q1 | ].
  apply Q2.
  - rewrite Hq. simpl. now apply insert_unless_subset_incl.
  - rewrite <- Hk. apply keep_upper_same_lower. now rewrite Hq.
Qed.

Lemma consume_upper_narrows_witness :
  let e := Sample.mk 1.2 1.8 true 30e3 false 0 in
  let p := Photometer.consume_all [Sample.mk 1.1 1.5 true 40e3 false 0] in
  Photometer.upper (Photometer.consume e p)
  <= Photometer.upper (Photometer.erase_old (Sample.start e) p).
Proof.
  intros e p. apply (consume_upper_narrows e p); reflexivity.
Defined.

(** ** Invariants of the stored maps *)

Lemma upper_bound_Forall {P : Q * Sample.t -> Prop} now (m : Photometer.MapT) :
  Forall P m -> Forall P (Photometer.upper_bound now m).
Proof.
  intros H. apply Forall_forall. intros x Hx.
  rewrite Forall_forall in H. apply H. eapply upper_bound_incl; eassumption.
Qed.

Lemma insert_unless_subset_Forall {P : Q * Sample.t -> Prop} e
      (m : Photometer.MapT) :
  P (Sample.end' e, e) -> Forall P m ->
  Forall P (Photometer.insert_unless_subset e m).
Proof.
  intros He H. unfold Photometer.insert_unless_subset.
  destruct (find _ m); [exact H | ].
  apply Forall_forall. intros x Hx. apply emplace_In in Hx.
  destruct Hx as [-> | Hx]; [exact He | ].
  rewrite Forall_forall in H. now apply H.
Qed.

(** An invariant of the two maps that the empty map has, that sub-maps
    inherit, and that the consumed sample has on the side of its sign, holds
    after [consume]. *)
Lemma consume_Forall (Pl Pu : Q * Sample.t -> Prop) e p :
  (Sample.sign e = false -> Pl (Sample.end' e, e)) ->
  (Sample.sign e = true -> Pu (Sample.end' e, e)) ->
  Forall Pl (Photometer.lower_by_end p) /\ Forall Pu (Photometer.upper_by_end p) ->
  Forall Pl (Photometer.lower_by_end (Photometer.consume e p)) /\
  Forall Pu (Photometer.upper_by_end (Photometer.consume e p)).
Proof.
  intros Hl Hu [Al Au].
  assert (H' : Forall Pl (Photometer.lower_by_end (Photometer.clear_or_erase e p)) /\
               Forall Pu (Photometer.upper_by_end (Photometer.clear_or_erase e p))).
  { unfold Photometer.clear_or_erase. destruct (Sample.should_clear e).
    - split; constructor.
    - split; simpl; now apply upper_bound_Forall. }
  destruct H' as [Bl Bu]. unfold Photometer.consume.
  destruct (Sample.sign e); split; simpl; try assumption;
    apply insert_unless_subset_Forall; auto.
Qed.

Lemma consume_signed e p : Props.signed p -> Props.signed (Photometer.consume e p).
Proof.
  apply (consume_Forall (fun kv => Sample.sign (snd kv) = false)
                        (fun kv => Sample.sign (snd kv) = true)); auto.
Qed.

(** X10.  After any sequence of [consume] calls both maps are in ascending
    key order, every element is keyed by the [end] of its sample, the lower
    map holds samples of sign 0 only and the upper map samples of sign 1
    only. *)
Theorem consume_all_well_formed (samples : list Sample.t) :
  let p := Photometer.consume_all samples in
  (Inv.sorted_by_key (Photometer.lower_by_end p) /\
   Inv.sorted_by_key (Photometer.upper_by_end p)) /\
  (Inv.keyed_by_end (Photometer.lower_by_end p) /\
   Inv.keyed_by_end (Photometer.upper_by_end p)) /\
  Props.signed p.
Proof.
  intros p. destruct (consume_all_ok samples) as [ [Sl Kl] [Su Ku] ].
  split; [now split | ]. split; [now split | ].
  apply (consume_all_ind Props.signed).
  - split; constructor.
  - apply consume_signed.
Qed.

(** ** Snapshots *)

Lemma upper_bound_upper_bound now t (m : Photometer.MapT) :
  now <= t ->
  Photometer.upper_bound t (Photometer.upper_bound now m)
  = Photometer.upper_bound t m.
Proof.
  intros Hle. induction m as [ | kv m IH]; [reflexivity | ].
  cbn [Photometer.upper_bound].
  destruct (Qltb now (fst kv)) eqn:E; [reflexivity | ].
  apply Qltb_ge in E.
  assert (E' : Qltb t (fst kv) = false)
    by (apply Qltb_ge; eapply Qle_trans; eassumption).
  now rewrite E'.
Qed.

(** X3.  Erasing the samples that ended by [now], or taking the snapshot
    at [now], does not change the snapshot, hence the estimate, at any time
    [t >= now]. *)
Theorem erase_old_then_as_of (p : Photometer.t) (now t : Q) :
  now <= t ->
  Photometer.as_of (Photometer.erase_old now p) t = Photometer.as_of p t /\
  Photometer.as_of (Photometer.as_of p now) t = Photometer.as_of p t /\
  Photometer.estimate_at t (Photometer.erase_old now p)
  = Photometer.estimate_at t p.
Proof.
  intros Hle.
  assert (H : Photometer.as_of (Photometer.erase_old now p) t
              = Photometer.as_of p t).
  { unfold Photometer.as_of, Photometer.erase_old. simpl.
    now rewrite !upper_bound_upper_bound. }
  split; [exact H | ]. split; [exact H | ].
  unfold Photometer.estimate_at. now rewrite H.
Qed.

Lemma erase_old_then_as_of_witness :
  let p := Photometer.consume_all
             [Sample.mk 1.1 1.5 false 65e3 false 0;
              Sample.mk 1.2 1.8 false 70e3 false 0] in
  Photometer.as_of (Photometer.erase_old 1.5 p) 1.6 = Photometer.as_of p 1.6 /\
  Photometer.as_of (Photometer.as_of p 1.5) 1.6 = Photometer.as_of p 1.6 /\
  Photometer.estimate_at 1.6 (Photometer.erase_old 1.5 p)
  = Photometer.estimate_at 1.6 p.
Proof.
  intros p. apply (erase_old_then_as_of p 1.5 1.6). vm_compute. discriminate.
Defined.

Lemma upper_bound_all_expired t (m : Photometer.MapT) :
  Forall (fun kv => fst kv <= t) m -> Photometer.upper_bound t m = [].
Proof.
  induction 1 as [ | kv m Hk _ IH]; [reflexivity | ].
  cbn [Photometer.upper_bound]. apply Qltb_ge in Hk. now rewrite Hk.
Qed.

Lemma upper_bound_none_expired t (m : Photometer.MapT) :
  Forall (fun kv => t < fst kv) m -> Photometer.upper_bound t m = m.
Proof.
  destruct 1 as [ | kv m Hk _]; [reflexivity | ].
  cbn [Photometer.upper_bound]. apply Qltb_lt in Hk. now rewrite Hk.
Qed.

Lemma keyed_Forall (P : Q -> Prop) (m : Photometer.MapT) :
  Inv.keyed_by_end m ->
  (forall kv, In kv m -> P (Sample.end' (snd kv))) ->
  Forall (fun kv => P (fst kv)) m.
Proof.
  intros Hk H. unfold Inv.keyed_by_end in Hk.
  rewrite Forall_forall in *. intros kv Hin. rewrite (Hk kv Hin). now apply H.
Qed.

(** X1.  When every stored sample has ended by [t], a fresh engine
    included, the snapshot at [t] is empty and [estimate(t)] is 50000. *)
Theorem estimate_all_expired (samples : list Sample.t) (t : Q) :
  let p := Photometer.consume_all samples in
  (forall kv, In kv (Props.stored p) -> Sample.end' (snd kv) <= t) ->
  Photometer.as_of p t = Photometer.empty /\
  Photometer.estimate_at t p == 50000.
Proof.
  intros p Hall. destruct (consume_all_ok samples) as [ [_ Kl] [_ Ku] ].
  fold p in Kl, Ku.
  assert (H : Photometer.as_of p t = Photometer.empty).
  { unfold Photometer.as_of, Photometer.empty. f_equal;
      apply upper_bound_all_expired; apply (keyed_Forall (fun k => k <= t));
      try assumption;
      intros kv Hin; apply Hall; unfold Props.stored; apply in_or_app; auto. }
  split; [exact H | ]. unfold Photometer.estimate_at. rewrite H. reflexivity.
Qed.

Lemma estimate_all_expired_witness :
  let p := Photometer.consume_all
             [Sample.mk 1.1 1.5 false 65e3 false 0;
              Sample.mk 1.2 1.8 true 30e3 false 0] in
  Photometer.as_of p 1.8 = Photometer.empty /\
  Photometer.estimate_at 1.8 p == 50000.
Proof.
  intros p.
  apply (estimate_all_expired
           [Sample.mk 1.1 1.5 false 65e3 false 0;
            Sample.mk 1.2 1.8 true 30e3 false 0] 1.8).
  intros kv Hin. vm_compute in Hin.
  destruct Hin as [<- | [<- | [] ] ]; vm_compute; discriminate.
Defined.

(** X2.  When every stored sample ends after [t], the snapshot at [t] is
    the engine itself and [estimate(t)] is [estimate()]. *)
Theorem estimate_none_expired (samples : list Sample.t) (t : Q) :
  let p := Photometer.consume_all samples in
  (forall kv, In kv (Props.stored p) -> t < Sample.end' (snd kv)) ->
  Photometer.as_of p t = p /\
  Photometer.estimate_at t p = Photometer.estimate p.
Proof.
  intros p Hall. destruct (consume_all_ok samples) as [ [_ Kl] [_ Ku] ].
  fold p in Kl, Ku.
  assert (H : Photometer.as_of p t = p).
  { unfold Photometer.as_of. destruct p as [lo up]. simpl in *. f_equal;
      apply upper_bound_none_expired; apply (keyed_Forall (fun k => t < k));
      try assumption;
      intros kv Hin; apply Hall; unfold Props.stored; apply in_or_app; auto. }
  split; [exact H | ]. unfold Photometer.estimate_at. now rewrite H.
Qed.

Lemma estimate_none_expired_witness :
  let p := Photometer.consume_all
             [Sample.mk 1.1 1.5 false 65e3 false 0;
              Sample.mk 1.2 1.8 true 30e3 false 0] in
  Photometer.as_of p 1.3 = p /\
  Photometer.estimate_at 1.3 p = Photometer.estimate p.
Proof.
  intros p.
  apply (estimate_none_expired
           [Sample.mk 1.1 1.5 false 65e3 false 0;
            Sample.mk 1.2 1.8 true 30e3 false 0] 1.3).
  intros kv Hin. vm_compute in Hin.
  destruct Hin as [<- | [<- | [] ] ]; vm_compute; reflexivity.
Defined.

(** ** Consuming a sample twice *)

Lemma upper_bound_above now (m : Photometer.MapT) :
  Inv.sorted_by_key m ->
  Forall (fun kv => now < fst kv) (Photometer.upper_bound now m).
Proof.
  intros Hs. rewrite (upper_bound_filter now m Hs).
  apply Forall_forall. intros kv Hin. apply filter_In in Hin.
  now apply Qltb_lt.
Qed.

Lemma clear_or_erase_fixed e p :
  Forall (fun kv => Sample.start e < fst kv) (Props.stored p) ->
  Sample.should_clear e = false ->
  Photometer.clear_or_erase e p = p.
Proof.
  intros Hall Hc. unfold Photometer.clear_or_erase, Photometer.erase_old.
  rewrite Hc. unfold Props.stored in Hall. apply Forall_app in Hall.
  destruct Hall as [Hl Hu]. destruct p as [lo up]. simpl in *.
  now rewrite !upper_bound_none_expired.
Qed.

(** X11.  Consuming a sample a second time right after the first changes
    nothing, when the sample clears or ends after it starts. *)
Theorem consume_idempotent (samples : list Sample.t) (e : Sample.t) :
  Sample.should_clear e = true \/ Sample.start e < Sample.end' e ->
  let p := Photometer.consume_all samples in
  Photometer.consume e (Photometer.consume e p) = Photometer.consume e p.
Proof.
  intros Hcase p.
  destruct (Sample.should_clear e) eqn:Hc.
  - now rewrite !(consume_clear e _ Hc).
  - destruct Hcase as [Hcase | Hlive]; [discriminate | ].
    set (q := Photometer.consume e p).
    destruct (consume_all_ok samples) as [ [Sl _] [Su _] ]. fold p in Sl, Su.
    assert (Hq : Forall (fun kv => Sample.start e < fst kv) (Props.stored q)).
    { destruct (consume_Forall (fun kv => Sample.start e < fst kv)
                  (fun kv => Sample.start e < fst kv) e
                  (Photometer.erase_old (Sample.start e) p)) as [Hl Hu].
      - intros _. exact Hlive.
      - intros _. exact Hlive.
      - split; simpl; now apply upper_bound_above.
      - unfold Props.stored. apply Forall_app.
        assert (Heq : q = Photometer.consume e
                            (Photometer.erase_old (Sample.start e) p)).
        { unfold q, Photometer.consume, Photometer.clear_or_erase. rewrite Hc.
          unfold Photometer.erase_old. simpl.
          now rewrite !upper_bound_upper_bound by apply Qle_refl. }
        rewrite Heq. now split. }
    assert (Hfix : Photometer.clear_or_erase e q = q)
      by now apply clear_or_erase_fixed.
    destruct (insert_unless_subset_covers e
                (Inv.target e (Photometer.clear_or_erase e p))) as [o [Hin Hsup] ].
    rewrite <- target_consume in Hin. fold q in Hin.
    unfold Photometer.consume at 1. rewrite Hfix.
    unfold Inv.target in Hin. destruct q as [lo up]. simpl in *.
    destruct (Sample.sign e);
      now rewrite (insert_unless_subset_found e _ o Hin Hsup).
Qed.

Lemma consume_idempotent_witness :
  let e := Sample.mk 1.2 1.8 false 70e3 false 0 in
  let p := Photometer.consume_all [Sample.mk 1.1 1.5 false 65e3 false 0] in
  Photometer.consume e (Photometer.consume e p) = Photometer.consume e p.
Proof.
  intros e.
  apply (consume_idempotent [Sample.mk 1.1 1.5 false 65e3 false 0] e).
  right. reflexivity.
Defined.

(** ** Engines fed from the wire *)

Lemma sext8_range (z : Z) : (-128 <= sext8 z < 128)%Z.
Proof.
  unfold sext8. pose proof (Z.mod_pos_bound z 256 eq_refl).
  destruct (Z.ltb_spec (z mod 256) 128); lia.
Qed.

Lemma of_bytes_in_range_any (b0 b1 : Z) :
  RawSample.in_range (RawSample.of_bytes b0 b1).
Proof.
  unfold RawSample.in_range, RawSample.of_bytes.
  cbn [RawSample.confidence RawSample.value RawSample.horizon].
  generalize (RawSample.word b0 b1). intros w.
  change (Z.land w 3) with (Z.land w (Z.ones 2)).
  change (Z.land (Z.shiftr w 12) 15) with (Z.land (Z.shiftr w 12) (Z.ones 4)).
  rewrite !Z.land_ones by lia.
  pose proof (Z.mod_pos_bound w (2 ^ 2) eq_refl).
  pose proof (Z.mod_pos_bound (Z.shiftr w 12) (2 ^ 4) eq_refl).
  pose proof (sext8_range (Z.land (Z.shiftr w 3) 255)).
  change (2 ^ 2)%Z with 4%Z in *. change (2 ^ 4)%Z with 16%Z in *. lia.
Qed.

Lemma value_lx_range (r : RawSample.t) :
  RawSample.in_range r ->
  80 <= RawSample.value_lx r /\ RawSample.value_lx r <= 99530.
Proof.
  intros [_ [Hv _] ]. unfold RawSample.value_lx. change 50e3 with 50000.
  assert (H1 : inject_Z (-49920) <= inject_Z (390 * RawSample.value r))
    by (rewrite <- Zle_Qle; lia).
  assert (H2 : inject_Z (390 * RawSample.value r) <= inject_Z 49530)
    by (rewrite <- Zle_Qle; lia).
  revert H1 H2. generalize (inject_Z (390 * RawSample.value r)). intros c.
  change (inject_Z (-49920)) with (-49920 # 1).
  change (inject_Z 49530) with (49530 # 1). intros H1 H2. split; lra.
Qed.

Lemma from_raw_value_range (now : Q) (data : Z * Z) :
  80 <= Sample.value (Sample.from_raw now data) /\
  Sample.value (Sample.from_raw now data) <= 99530.
Proof.
  exact (value_lx_range _ (of_bytes_in_range_any (fst data) (snd data))).
Qed.

Lemma horizon_s_range (r : RawSample.t) :
  (0 <= RawSample.horizon r < 16)%Z ->
  0.0165 <= RawSample.horizon_s r /\ RawSample.horizon_s r <= 540.673.
Proof.
  intros Hh. pose proof (horizon_s_exact r Hh) as Hd.
  rewrite c0_0165_value in Hd.
  assert (HP1 : 1 <= inject_Z (2 ^ RawSample.horizon r)).
  { change 1 with (inject_Z (2 ^ 0)). rewrite <- Zle_Qle.
    apply Z.pow_le_mono_r; lia. }
  assert (HP2 : inject_Z (2 ^ RawSample.horizon r) <= 32768).
  { change 32768 with (inject_Z (2 ^ 15)). rewrite <- Zle_Qle.
    apply Z.pow_le_mono_r; lia. }
  revert Hd HP1 HP2.
  generalize (RawSample.horizon_s r) (inject_Z (2 ^ RawSample.horizon r)).
  intros d P Hd HP1 HP2. split; lra.
Qed.

(** X13.  For any two bytes and a timestamp of magnitude at most [2^40], the
    decoded sample starts at the timestamp, has a confidence from 0 to 3 and
    a value from 80 to 99530, and its end is within [2^-13] of the sum of the
    timestamp and the horizon, which is from 0.0165 to 540.673: the sample
    ends after it starts. *)
Theorem from_raw_ranges (now : Q) (data : Z * Z) :
  Qabs now <= 2 ^ 40 ->
  let e := Sample.from_raw now data in
  let r := RawSample.of_bytes (fst data) (snd data) in
  Sample.start e = now /\
  (0 <= Sample.confidence e < 4)%Z /\
  80 <= Sample.value e /\ Sample.value e <= 99530 /\
  Qabs (Sample.end' e - (now + RawSample.horizon_s r)) <= 2 ^ (-13) /\
  0.0165 <= RawSample.horizon_s r /\ RawSample.horizon_s r <= 540.673 /\
  Sample.start e < Sample.end' e.
Proof.
  intros Hnow e r.
  pose proof (of_bytes_in_range_any (fst data) (snd data)) as Hr. fold r in Hr.
  destruct (value_lx_range _ Hr) as [V1 V2].
  destruct Hr as [Hc [_ Hh] ].
  destruct (horizon_s_range r Hh) as [H1 H2].
  unfold e, Sample.from_raw, Sample.of_raw, Sample.start, Sample.confidence,
    Sample.value, Sample.end'. cbn [Sample.start_ Sample.end_ Sample.value_
    Sample.confidence_]. fold r. unfold Double.add.
  apply Qabs_Qle_condition in Hnow.
  change (2 ^ 40) with (1099511627776 # 1) in Hnow.
  revert H1 H2. generalize (RawSample.horizon_s r). intros d H1 H2.
  assert (E1 : Qabs (Double.round (now + d) - (now + d)) <= 2 ^ (40 - 53)).
  { apply round_error; [ | lia]. apply Qabs_Qlt_condition.
    change (2 ^ (40 + 1)) with (2199023255552 # 1). split; lra. }
  change (2 ^ (40 - 53)) with (2 ^ (-13)) in E1.
  pose proof E1 as E1'. apply Qabs_Qle_condition in E1'.
  change (2 ^ (-13)) with (1 # 8192) in E1'.
  revert E1 E1'. generalize (Double.round (now + d)). intros en E1 E1'.
  repeat split; try assumption; try lia; lra.
Qed.

Lemma from_raw_ranges_witness :
  let e := Sample.from_raw 1.1 (48, 81)%Z in
  let r := RawSample.of_bytes 48 81 in
  Sample.start e = 1.1 /\
  (0 <= Sample.confidence e < 4)%Z /\
  80 <= Sample.value e /\ Sample.value e <= 99530 /\
  Qabs (Sample.end' e - (1.1 + RawSample.horizon_s r)) <= 2 ^ (-13) /\
  0.0165 <= RawSample.horizon_s r /\ RawSample.horizon_s r <= 540.673 /\
  Sample.start e < Sample.end' e.
Proof.
  apply (from_raw_ranges 1.1 (48, 81)%Z). vm_compute. discriminate.
Defined.

Lemma consume_values_within e p :
  80 <= Sample.value e -> Sample.value e <= 99530 ->
  Props.values_within 80 99530 (Photometer.lower_by_end p) /\
  Props.values_within 80 99530 (Photometer.upper_by_end p) ->
  Props.values_within 80 99530 (Photometer.lower_by_end (Photometer.consume e p)) /\
  Props.values_within 80 99530 (Photometer.upper_by_end (Photometer.consume e p)).
Proof.
  intros H1 H2.
  apply (consume_Forall
           (fun kv => 80 <= Sample.value (snd kv) /\ Sample.value (snd kv) <= 99530)
           (fun kv => 80 <= Sample.value (snd kv) /\ Sample.value (snd kv) <= 99530));
    intros _; now split.
Qed.

Lemma consume_raw_all_values (packets : list (Q * (Z * Z))) :
  Props.values_within 80 99530
    (Photometer.lower_by_end (Props.consume_raw_all packets)) /\
  Props.values_within 80 99530
    (Photometer.upper_by_end (Props.consume_raw_all packets)).
Proof.
  unfold Props.consume_raw_all.
  assert (H0 : Props.values_within 80 99530 (Photometer.lower_by_end Photometer.empty) /\
               Props.values_within 80 99530 (Photometer.upper_by_end Photometer.empty))
    by (split; constructor).
  revert H0. generalize Photometer.empty.
  induction packets as [ | pk packets IH]; intros p Hp; [exact Hp | ].
  cbn [fold_left]. apply IH. unfold Photometer.consume_raw.
  destruct (from_raw_value_range (fst pk) (snd pk)) as [V1 V2].
  now apply consume_values_within.
Qed.

(** X12.  On an engine fed only by [consume(now, data)], at every query
    time the lower bound is between 0 and 99530, the upper bound between 80
    and 100000, and the estimate between 40 and 99765. *)
Theorem wire_estimate_bounds (packets : list (Q * (Z * Z))) (t : Q) :
  let snapshot := Photometer.as_of (Props.consume_raw_all packets) t in
  (0 <= Photometer.lower snapshot /\ Photometer.lower snapshot <= 99530) /\
  (80 <= Photometer.upper snapshot /\ Photometer.upper snapshot <= 100000) /\
  (40 <= Photometer.estimate_at t (Props.consume_raw_all packets) /\
   Photometer.estimate_at t (Props.consume_raw_all packets) <= 99765).
Proof.
  intros snapshot.
  destruct (consume_raw_all_values packets) as [Vl Vu].
  apply (upper_bound_Forall t) in Vl. apply (upper_bound_Forall t) in Vu.
  change (Props.values_within 80 99530 (Photometer.lower_by_end snapshot)) in Vl.
  change (Props.values_within 80 99530 (Photometer.upper_by_end snapshot)) in Vu.
  unfold Props.values_within in Vl, Vu. rewrite Forall_forall in Vl, Vu.
  destruct (lower_facts snapshot) as [L1 [_ L3] ].
  destruct (upper_facts snapshot) as [U1 [_ U3] ].
  change (Sample.value universal_lower) with 0 in L1.
  change (Sample.value universal_upper) with 100000 in U1.
  assert (L2 : Photometer.lower snapshot <= 99530).
  { unfold Photometer.lower.
    destruct L3 as [-> | [kv [Hin [_ ->] ] ] ]; [discriminate | ].
    now apply Vl. }
  assert (U2 : 80 <= Photometer.upper snapshot).
  { unfold Photometer.upper.
    destruct U3 as [-> | [kv [Hin [_ ->] ] ] ]; [discriminate | ].
    now apply Vu. }
  split; [now split | ]. split; [now split | ].
  unfold Photometer.estimate_at. fold snapshot. unfold Photometer.estimate.
  revert L1 L2 U1 U2.
  generalize (Photometer.lower snapshot) (Photometer.upper snapshot).
  intros l u L1 L2 U1 U2. split; lra.
Qed.

(** ** Arbitration between two samples *)

Lemma conflicts_sym (a b : Sample.t) :
  Sample.conflicts a b = Sample.conflicts b a.
Proof.
  unfold Sample.conflicts.
  destruct (Sample.sign_ a), (Sample.sign_ b); cbn [andb negb orb];
    rewrite ?orb_false_r; reflexivity.
Qed.

Lemma overrides_swap (a b : Sample.t) :
  Sample.overrides a b = true -> Sample.overrides b a = false.
Proof.
  unfold Sample.overrides. rewrite (conflicts_sym b a).
  destruct (Sample.conflicts a b); [ | discriminate].
  rewrite orb_true_iff, andb_true_iff, Z.ltb_lt, Z.eqb_eq, Qltb_lt.
  intros H. apply orb_false_intro.
  - apply Z.ltb_ge. destruct H as [H | [H _] ]; lia.
  - destruct H as [H | [Hc Hs] ].
    + apply andb_false_intro1. apply Z.eqb_neq. lia.
    + apply andb_false_intro2. apply Qltb_ge. now apply Qlt_le_weak.
Qed.

(** X14.  Two samples never override each other. *)
Theorem overrides_never_mutual (a b : Sample.t) :
  Sample.overrides a b && Sample.overrides b a = false.
Proof.
  destruct (Sample.overrides a b) eqn:E; [ | reflexivity].
  now rewrite (overrides_swap a b E).
Qed.

(** X15.  [is_superset_of] is transitive. *)
Theorem is_superset_of_trans (a b c : Sample.t) :
  Sample.is_superset_of a b = true -> Sample.is_superset_of b c = true ->
  Sample.is_superset_of a c = true.
Proof.
  rewrite !is_superset_of_iff. intros [E1 V1] [E2 V2].
  split; [eapply Qle_trans; eassumption | ].
  destruct V1 as [ [Sa [Sb V1] ] | [Sa [Sb V1] ] ];
    destruct V2 as [ [Sb' [Sc V2] ] | [Sb' [Sc V2] ] ]; try congruence;
    [left | right]; repeat split; try assumption;
    eapply Qle_trans; eassumption.
Qed.

Lemma is_superset_of_trans_witness :
  Sample.is_superset_of (Sample.mk 1.0 2.0 true 30e3 false 0)
                        (Sample.mk 1.2 1.4 true 45e3 false 0) = true.
Proof.
  apply (is_superset_of_trans _ (Sample.mk 1.1 1.5 true 40e3 false 0));
    reflexivity.
Defined.






(** ** The wire fields and their bytes *)

Lemma all_fields_roundtrip :
  forallb (fun c => forallb (fun cl => forallb (fun v => forallb (fun s =>
    forallb (fun h => Props.fields_roundtrip (RawSample.mk c cl v s h))
            (Props.zrange 0 16)) [false; true]) (Props.zrange (-128) 256))
          [false; true]) (Props.zrange 0 4) = true.
Proof. vm_compute. reflexivity. Qed.

Lemma fields_roundtrip_all (r : RawSample.t) :
  RawSample.in_range r -> Props.fields_roundtrip r = true.
Proof.
  destruct r as [c cl v s h]. intros [Hc [Hv Hh] ]. simpl in Hc, Hv, Hh.
  pose proof all_fields_roundtrip as H.
  rewrite forallb_forall in H. specialize (H c (zrange_In 0 4 c Hc)).
  rewrite forallb_forall in H.
  specialize (H cl ltac:(destruct cl; simpl; tauto)).
  rewrite forallb_forall in H. specialize (H v (zrange_In (-128) 256 v Hv)).
  rewrite forallb_forall in H.
  specialize (H s ltac:(destruct s; simpl; tauto)).
  rewrite forallb_forall in H. exact (H h (zrange_In 0 16 h Hh)).
Qed.

(** X18.  The two bytes of a [RawSample] whose fields are within the
    bit-field widths are bytes, and reading them gives the same fields. *)
Theorem of_bytes_to_bytes (r : RawSample.t) :
  RawSample.in_range r ->
  let bs := RawSample.to_bytes r in
  (0 <= fst bs < 256)%Z /\ (0 <= snd bs < 256)%Z /\
  RawSample.of_bytes (fst bs) (snd bs) = r.
Proof.
  intros Hr bs. pose proof (fields_roundtrip_all r Hr) as H.
  unfold Props.fields_roundtrip in H. fold bs in H. cbv zeta in H.
  rewrite !andb_true_iff, !Z.eqb_eq, !Bool.eqb_true_iff in H.
  split; [lia | ]. split; [lia | ].
  destruct (RawSample.of_bytes (fst bs) (snd bs)) as [c cl v s h].
  destruct r as [c' cl' v' s' h']. simpl in H.
  f_equal; tauto.
Qed.

Lemma of_bytes_to_bytes_witness :
  let r := RawSample.mk 2 false (-16) false 5 in
  let bs := RawSample.to_bytes r in
  (0 <= fst bs < 256)%Z /\ (0 <= snd bs < 256)%Z /\
  RawSample.of_bytes (fst bs) (snd bs) = r.
Proof.
  intros r. apply (of_bytes_to_bytes r). unfold RawSample.in_range. simpl. lia.
Defined.
